(** * Voice-Cloning-Engine: voice registry and chunked speech generation

    A shallow embedding of [core/voice_manager.py] and
    [core/speech_generator.py].

    Modelling conventions.
    - Python [str] values are [string]s; each [ascii] stands for one code
      point below 256.
    - Python [float]s (speed factor, clock readings, audio samples) are
      exact rationals [Q]; [int(x)] is truncation toward zero.
    - The registry [self.voices["samples"]] is an insertion-ordered
      association list, as a Python [dict] is.
    - The samples directory is a finite map from file names to file
      contents; a path [SAMPLES_DIR / name] is represented by [name].
      File operations on it fail only when the file read is missing or
      of the wrong kind.
    - The external collaborators ([tts_model], [soundfile], the clock,
      the text splitter, uploaded files) are the fields of a record
      [collab]; every theorem quantifies over it. *)

From Stdlib Require Import ZArith QArith Qround Lia Lqa Ascii.
From Stdlib Require String.
From stdpp Require Import base gmap strings list sorting.

Close Scope Q_scope.
Open Scope Z_scope.

(** ** Python string methods *)

Module Str.

(** Code points below 256 for which [str.isspace] holds. *)
Definition isspace (c : ascii) : bool :=
  let n := nat_of_ascii c in
  ((9 <=? n) && (n <=? 13) || (28 <=? n) && (n <=? 32)
   || (n =? 133) || (n =? 160))%nat.

Fixpoint lstrip (s : string) : string :=
  match s with
  | EmptyString => EmptyString
  | String c s' => if isspace c then lstrip s' else s
  end.

Fixpoint rstrip (s : string) : string :=
  match s with
  | EmptyString => EmptyString
  | String c s' =>
      match rstrip s' with
      | EmptyString => if isspace c then EmptyString else String c EmptyString
      | r => String c r
      end
  end.

(** [s.strip()] *)
Definition strip (s : string) : string := rstrip (lstrip s).

(** Truth value of a [str]: [bool(s)]. *)
Definition truthy (s : string) : bool :=
  match s with EmptyString => false | _ => true end.

(** [s.endswith(suffix)]: some tail of [s] is [suffix]. *)
Fixpoint endswith (s suffix : string) : bool :=
  if bool_decide (s = suffix) then true
  else match s with
       | EmptyString => false
       | String _ s' => endswith s' suffix
       end.

(** [s.rfind(".")], [None] for -1. *)
Fixpoint rfind_dot (s : string) : option nat :=
  match s with
  | EmptyString => None
  | String c s' =>
      match rfind_dot s' with
      | Some k => Some (S k)
      | None => if bool_decide (c = "."%char) then Some 0%nat else None
      end
  end.

Fixpoint all_dots (s : string) : bool :=
  match s with
  | EmptyString => true
  | String c s' => bool_decide (c = "."%char) && all_dots s'
  end.

(** [os.path.splitext(p)] on a name without directory separators: split
    at the last dot unless only dots precede it. *)
Definition splitext (p : string) : string * string :=
  match rfind_dot p with
  | Some k =>
      let root := String.substring 0 k p in
      if all_dots root then (p, EmptyString)
      else (root, String.substring k (String.length p - k) p)
  | None => (p, EmptyString)
  end.

End Str.

(** ** Insertion-ordered dictionaries *)

Module Dict.
Section Dict.
Context {V : Type}.

Definition t := list (string * V).

(** [d.get(k)] *)
Fixpoint get (d : t) (k : string) : option V :=
  match d with
  | [] => None
  | (k', v) :: d' => if bool_decide (k' = k) then Some v else get d' k
  end.

(** [k in d] *)
Definition mem (d : t) (k : string) : bool :=
  match get d k with Some _ => true | None => false end.

(** [d[k] = v]: an existing key keeps its position, a new key goes last. *)
Fixpoint set (d : t) (k : string) (v : V) : t :=
  match d with
  | [] => [(k, v)]
  | (k', v') :: d' =>
      if bool_decide (k' = k) then (k, v) :: d' else (k', v') :: set d' k v
  end.

(** [del d[k]] (the callers check [k in d] first). *)
Fixpoint del (d : t) (k : string) : t :=
  match d with
  | [] => []
  | (k', v') :: d' =>
      if bool_decide (k' = k) then d' else (k', v') :: del d' k
  end.

(** [list(d.keys())] *)
Definition keys (d : t) : list string := map fst d.

End Dict.
Arguments t : clear implicits.
End Dict.

(** ** Data *)

(** A waveform: a one-dimensional array of samples. *)
Definition audio := list Q.

(** The reference encoding computed by the model; opaque to this code. *)
Definition codes := list Z.

Inductive file :=
| TextFile (s : string)
| AudioFile (a : audio)
| CodesFile (c : codes).

Inductive exn :=
| ValueError (msg : string)
| FileNotFoundError (path : string)
| ZeroDivisionError
| IndexError
| UnpicklingError (path : string)
| UnicodeDecodeError (path : string)
| CollaboratorError (msg : string).

(** [str(e)] *)
Definition exn_str (e : exn) : string :=
  match e with
  | ValueError msg => msg
  | FileNotFoundError path => "No such file or directory: " +:+ path
  | ZeroDivisionError => "float division by zero"
  | IndexError => "index out of bounds"
  | UnpicklingError path => "invalid load key: " +:+ path
  | UnicodeDecodeError path => "codec can't decode: " +:+ path
  | CollaboratorError msg => msg
  end.

(** ** External collaborators *)

Record collab := {
  (** [tts_model.encode_reference(path)], as a function of the file found
      at [path]. *)
  encode_reference : file -> exn + codes;
  (** [tts_model.infer(chunk, ref_codes, ref_text)]; the first argument is
      the number of earlier [infer] calls, so that two calls with the same
      arguments may differ. *)
  infer : nat -> string -> codes -> string -> exn + audio;
  (** [core.text_processor.split_text_into_chunks] *)
  split_text_into_chunks : string -> list string;
  (** the n-th reading of [time.time()] *)
  time_time : nat -> Q;
  (** [sf.write(TEMP_OUTPUT_PATH, wav, SAMPLE_RATE)]: [None] when it
      returns, [Some e] when it raises [e]. *)
  sf_write : audio -> option exn;
  (** the files outside the samples directory (uploads) *)
  read_upload : string -> option file
}.

(** ** config.py *)

Definition SAMPLE_RATE : Q := 24000.
Definition SILENCE_DURATION : Q := 25 # 100.
Definition TEMP_OUTPUT_PATH : string := "temp_output.wav".

(** ** The observable behaviour of a run *)

Inductive time_str :=
| Seconds (s : Q)
| Minutes (minutes : Z) (plural : bool) (s : Q).

(** The status strings, one constructor per (f-)string literal of the
    source with the values interpolated into it. *)
Inductive status_message :=
| StEmptyText
| StNoVoice
| StVoiceNotFound (voice_name : string)
| StLoadingReference
| StEstimate (estimated : time_str) (total_chunks : Z)
| StChunk (i total_chunks progress : Z) (remaining : option time_str)
| StFinalizing
| StComplete (total : time_str)
| StErrorGenerating (e_str : string).

(** What [generate_speech] yields:
    [(progress, audio_path, status_message, delete_status)]. *)
Record event := Event {
  progress : Z;
  audio_path : option string;
  status : status_message;
  delete_status : option string
}.

Inductive action :=
| Yield (e : event)
| CallInfer (chunk : string) (ref_codes : codes) (ref_text : string)
| CallEncodeReference (path : string)
| CallTorchLoad (path : string)
| CallSfWrite (wav : audio).

Record gstate := GState {
  trace : list action;
  ticks : nat;
  infer_calls : nat;
  temp_output : option audio
}.

(** ** Computations that yield, call collaborators and may raise *)

Definition M (A : Type) : Type := gstate -> (exn + A) * gstate.

Definition ret {A} (a : A) : M A := fun s => (inr a, s).

Definition raise {A} (e : exn) : M A := fun s => (inl e, s).

Definition bind {A B} (m : M A) (k : A -> M B) : M B :=
  fun s => match m s with
           | (inr a, s') => k a s'
           | (inl e, s') => (inl e, s')
           end.

(** [try: m  except Exception as e: h e] *)
Definition try_except {A} (m : M A) (h : exn -> M A) : M A :=
  fun s => match m s with
           | (inr a, s') => (inr a, s')
           | (inl e, s') => h e s'
           end.

Definition lift {A} (r : exn + A) : M A := fun s => (r, s).

Definition log (a : action) : M unit :=
  fun s => (inr tt, GState (trace s ++ [a]) (ticks s) (infer_calls s)
                           (temp_output s)).

Definition yield (e : event) : M unit := log (Yield e).

Notation "x <- m ;; k" := (bind m (fun x => k))
  (at level 100, m at next level, right associativity).
Notation "m ;;; k" := (bind m (fun _ => k))
  (at level 100, right associativity).

(** ** core/voice_manager.py *)

Record voice_manager := VoiceManager {
  (** [self.voices["samples"]]: name -> (txt path, wav or pt path) *)
  voices : Dict.t (string * string);
  (** the files under [SAMPLES_DIR] *)
  samples_dir : gmap string file
}.

(** [(SAMPLES_DIR / name).exists()] *)
Definition path_exists (fs : gmap string file) (name : string) : bool :=
  match fs !! name with Some _ => true | None => false end.

(** [os.listdir(SAMPLES_DIR)] returns the names in the directory, in an
    order the operating system chooses. *)
Definition lists_dir (listing : list string) (fs : gmap string file) : Prop :=
  forall name, name ∈ listing <-> is_Some (fs !! name).

Definition os_listdir (fs : gmap string file) : list string :=
  (map_to_list fs).*1.

(** The body of the scanning loop of [load_voices]. *)
Definition scan_entry (fs : gmap string file)
    (samples : Dict.t (string * string)) (name : string)
  : Dict.t (string * string) :=
  if Str.endswith name ".txt" then
    let base := fst (Str.splitext name) in
    let txt_path := base +:+ ".txt" in
    let wav_path := base +:+ ".wav" in
    let pt_path := base +:+ ".pt" in
    if path_exists fs txt_path
       && (path_exists fs wav_path || path_exists fs pt_path)
    then
      let audio_or_pt := if path_exists fs wav_path then wav_path else pt_path in
      Dict.set samples base (txt_path, audio_or_pt)
    else samples
  else samples.

(** [load_voices], given what [os.listdir] returned. *)
Definition load_voices_in (listing : list string) (vm : voice_manager)
  : voice_manager :=
  VoiceManager (fold_left (scan_entry (samples_dir vm)) listing [])
               (samples_dir vm).

Definition load_voices (vm : voice_manager) : voice_manager :=
  load_voices_in (os_listdir (samples_dir vm)) vm.

Definition get_voice_list (vm : voice_manager) : list string :=
  Dict.keys (voices vm).

Definition voice_exists (vm : voice_manager) (voice_name : string) : bool :=
  Dict.mem (voices vm) voice_name.

(** [open(path, "r").read()] *)
Definition read_text (fs : gmap string file) (path : string) : exn + string :=
  match fs !! path with
  | Some (TextFile s) => inr s
  | Some _ => inl (UnicodeDecodeError path)
  | None => inl (FileNotFoundError path)
  end.

(** [torch.load(path)] *)
Definition torch_load (fs : gmap string file) (path : string) : M codes :=
  log (CallTorchLoad path) ;;;
  match fs !! path with
  | Some (CodesFile c) => ret c
  | Some _ => raise (UnpicklingError path)
  | None => raise (FileNotFoundError path)
  end.

(** [self.tts_model.encode_reference(path)] *)
Definition tts_encode_reference (c : collab) (fs : gmap string file)
    (path : string) : M codes :=
  log (CallEncodeReference path) ;;;
  match fs !! path with
  | Some f => lift (encode_reference c f)
  | None => raise (FileNotFoundError path)
  end.

Definition load_reference (c : collab) (vm : voice_manager)
    (voice_name : string) : M (string * codes) :=
  match Dict.get (voices vm) voice_name with
  | None => raise (ValueError ("Voice '" +:+ voice_name +:+ "' not found"))
  | Some (txt_path, audio_or_pt) =>
      ref_text <- lift (read_text (samples_dir vm) txt_path) ;;
      ref_codes <- (if Str.endswith audio_or_pt ".pt"
                    then torch_load (samples_dir vm) audio_or_pt
                    else tts_encode_reference c (samples_dir vm) audio_or_pt) ;;
      ret (Str.strip ref_text, ref_codes)
  end.

Inductive vm_status :=
| StNameEmpty
| StRefTextEmpty
| StNoAudioFile
| StAlreadyExists (name : string)
| StCloned (name : string)
| StErrorCloning (e_str : string)
| StNotFound (name : string)
| StDeleted (name : string)
| StErrorDeleting (e_str : string).

(** [gr.update()] and [gr.update(choices=..., value=...)] *)
Inductive gr_update :=
| GrNoUpdate
| GrUpdate (choices : list string) (value : option string).

(** [not s or not s.strip()] *)
Definition blank (s : string) : bool :=
  negb (Str.truthy s) || negb (Str.truthy (Str.strip s)).

(** [not audio_file], for an [audio_file] that is [None] or a path *)
Definition not_provided (audio_file : option string) : bool :=
  match audio_file with
  | None => true
  | Some p => negb (Str.truthy p)
  end.

Definition clone_voice (c : collab) (new_name ref_text : string)
    (audio_file : option string) (vm : voice_manager)
  : (vm_status * gr_update) * voice_manager :=
  if blank new_name then ((StNameEmpty, GrNoUpdate), vm)
  else if blank ref_text then ((StRefTextEmpty, GrNoUpdate), vm)
  else if not_provided audio_file then ((StNoAudioFile, GrNoUpdate), vm)
  else if voice_exists vm new_name
  then ((StAlreadyExists new_name, GrNoUpdate), vm)
  else
    let txt_path := new_name +:+ ".txt" in
    let wav_path := new_name +:+ ".wav" in
    let pt_path := new_name +:+ ".pt" in
    (* f.write(ref_text.strip()) *)
    let fs1 := <[txt_path := TextFile (Str.strip ref_text)]> (samples_dir vm) in
    (* shutil.copy(audio_file, wav_path) *)
    let src := default EmptyString audio_file in
    match read_upload c src with
    | None =>
        ((StErrorCloning (exn_str (FileNotFoundError src)), GrNoUpdate),
         VoiceManager (voices vm) fs1)
    | Some f =>
        let fs2 := <[wav_path := f]> fs1 in
        match encode_reference c f with
        | inl e =>
            ((StErrorCloning (exn_str e), GrNoUpdate),
             VoiceManager (voices vm) fs2)
        | inr ref_codes =>
            (* torch.save(ref_codes, pt_path) *)
            let fs3 := <[pt_path := CodesFile ref_codes]> fs2 in
            let vm' := VoiceManager
                         (Dict.set (voices vm) new_name (txt_path, pt_path))
                         fs3 in
            ((StCloned new_name,
              GrUpdate (get_voice_list vm') (Some new_name)), vm')
        end
    end.

(** [if path.exists(): path.unlink()] *)
Definition unlink_if_exists (fs : gmap string file) (path : string)
  : gmap string file :=
  if path_exists fs path then delete path fs else fs.

Definition delete_voice (voice_name : string) (vm : voice_manager)
  : (vm_status * gr_update) * voice_manager :=
  if negb (voice_exists vm voice_name)
  then ((StNotFound voice_name, GrNoUpdate), vm)
  else
    let txt_path := voice_name +:+ ".txt" in
    let wav_path := voice_name +:+ ".wav" in
    let pt_path := voice_name +:+ ".pt" in
    let fs := fold_left unlink_if_exists [txt_path; wav_path; pt_path]
                        (samples_dir vm) in
    let vm' := VoiceManager (Dict.del (voices vm) voice_name) fs in
    let remaining_voices := get_voice_list vm' in
    let new_selected := head remaining_voices in
    ((StDeleted voice_name, GrUpdate remaining_voices new_selected), vm').

(** ** core/speech_generator.py *)

(** [int(x)] for a float [x]: truncation toward zero. *)
Definition int_of_float (x : Q) : Z := Z.quot (Qnum x) (Zpos (Qden x)).

(** [time.time()] *)
Definition py_time (c : collab) : M Q :=
  fun s => (inr (time_time c (ticks s)),
            GState (trace s) (S (ticks s)) (infer_calls s) (temp_output s)).

(** [tts_model.infer(chunk, ref_codes, ref_text)] *)
Definition tts_infer (c : collab) (chunk : string) (ref_codes : codes)
    (ref_text : string) : M audio :=
  fun s => (infer c (infer_calls s) chunk ref_codes ref_text,
            GState (trace s ++ [CallInfer chunk ref_codes ref_text])
                   (ticks s) (S (infer_calls s)) (temp_output s)).

Definition process_chunk (c : collab) (chunk : string) (ref_codes : codes)
    (ref_text : string) : M (option audio) :=
  try_except
    (wav <- tts_infer c chunk ref_codes ref_text ;; ret (Some wav))
    (fun _ => ret None).

Definition estimate_generation_time (num_chunks : Z) : Z :=
  num_chunks * 3 + 2.

Definition format_time (seconds : Q) : time_str :=
  if negb (Qle_bool 60 seconds) then Seconds seconds
  else
    let minutes := Qfloor (seconds / 60) in
    Minutes minutes (negb (minutes =? 1)) (seconds - 60 * inject_Z minutes)%Q.

(** [np.round]: to the nearest integer, ties to the even one. *)
Definition np_round (x : Q) : Z :=
  let f := Qfloor x in
  match ((x - inject_Z f) ?= (1 # 2))%Q with
  | Lt => f
  | Gt => f + 1
  | Eq => if Z.even f then f else f + 1
  end.

(** [np.linspace(0, stop, num)]: [num] evenly spaced values from 0 to
    [stop], both included; a negative [num] raises. *)
Definition np_linspace0 (stop num : Z) : exn + list Q :=
  if num <? 0
  then inl (ValueError "Number of samples must be non-negative")
  else
    let div := num - 1 in
    inr (map (fun k : Z =>
                if 0 <? div
                then (inject_Z k * (inject_Z stop / inject_Z div))%Q
                else (inject_Z k * inject_Z stop)%Q)
             (seqZ 0 num)).

(** [a[indices]] for an integer index array: negative indices count from
    the end, an index out of range raises. *)
Fixpoint np_take (a : audio) (indices : list Z) : exn + audio :=
  match indices with
  | [] => inr []
  | i :: rest =>
      let n := Z.of_nat (length a) in
      let j := if i <? 0 then n + i else i in
      if (j <? 0) || (n <=? j) then inl IndexError
      else match a !! Z.to_nat j, np_take a rest with
           | Some x, inr xs => inr (x :: xs)
           | None, _ => inl IndexError
           | _, inl e => inl e
           end
  end.

Definition _apply_speed_adjustment (wav : audio) (speed : Q) : exn + audio :=
  if Qeq_bool speed 1 then inr wav
  else if Qeq_bool speed 0 then inl ZeroDivisionError
  else
    let target_length :=
      int_of_float (inject_Z (Z.of_nat (length wav)) / speed)%Q in
    match np_linspace0 (Z.of_nat (length wav) - 1) target_length with
    | inl e => inl e
    | inr ys => np_take wav (map np_round ys)
    end.

(** The body of the per-chunk loop, for the chunks from the [i]-th on. *)
Fixpoint chunk_loop (c : collab) (start_time : Q) (total_chunks : Z)
    (ref_codes : codes) (ref_text : string) (i : Z) (chunks : list string)
    (chunk_results : list (Z * audio)) : M (list (Z * audio)) :=
  match chunks with
  | [] => ret chunk_results
  | chunk :: rest =>
      let progress :=
        int_of_float (15 + inject_Z (75 * i) / inject_Z total_chunks)%Q in
      now <- py_time c ;;
      let elapsed_time := (now - start_time)%Q in
      let status :=
        if 1 <? i then
          let avg_time_per_chunk := (elapsed_time / inject_Z (i - 1))%Q in
          let remaining_chunks := total_chunks - (i - 1) in
          let estimated_remaining :=
            (avg_time_per_chunk * inject_Z remaining_chunks)%Q in
          StChunk i total_chunks progress
                  (Some (format_time estimated_remaining))
        else StChunk i total_chunks progress None in
      yield (Event progress None status None) ;;;
      chunk_wav <- process_chunk c chunk ref_codes ref_text ;;
      chunk_loop c start_time total_chunks ref_codes ref_text (i + 1) rest
        (match chunk_wav with
         | Some wav => chunk_results ++ [(i - 1, wav)]
         | None => chunk_results
         end)
  end.

(** [chunk_results.sort(key=lambda x: x[0])]: a stable sort on the index. *)
Fixpoint insert_by_index (x : Z * audio) (l : list (Z * audio))
  : list (Z * audio) :=
  match l with
  | [] => [x]
  | y :: l' => if fst x <=? fst y then x :: y :: l'
               else y :: insert_by_index x l'
  end.

Definition sort_by_index (l : list (Z * audio)) : list (Z * audio) :=
  fold_right insert_by_index [] l.

(** [np.zeros(int(SAMPLE_RATE * SILENCE_DURATION))] *)
Definition silence : audio :=
  replicate (Z.to_nat (int_of_float (SAMPLE_RATE * SILENCE_DURATION)%Q)) 0%Q.

(** [all_wav = processed_chunks[0]] followed by the concatenation loop. *)
Definition concatenate_chunks (processed_chunks : list audio) : exn + audio :=
  match processed_chunks with
  | [] => inl IndexError
  | first :: rest =>
      inr (fold_left (fun all_wav chunk_wav => all_wav ++ silence ++ chunk_wav)
                     rest first)
  end.

(** [sf.write(str(TEMP_OUTPUT_PATH), all_wav, SAMPLE_RATE)] *)
Definition sf_write_output (c : collab) (all_wav : audio) : M unit :=
  fun s =>
    match sf_write c all_wav with
    | None => (inr tt, GState (trace s ++ [CallSfWrite all_wav]) (ticks s)
                              (infer_calls s) (Some all_wav))
    | Some e => (inl e, GState (trace s ++ [CallSfWrite all_wav]) (ticks s)
                               (infer_calls s) (temp_output s))
    end.

Definition generate_speech (c : collab) (vm : voice_manager) (text : string)
    (voice_name : option string) (speed : Q) : M unit :=
  try_except
    (if blank text then yield (Event 0 None StEmptyText None)
     else if not_provided voice_name then yield (Event 0 None StNoVoice None)
     else
       let voice := default EmptyString voice_name in
       if negb (voice_exists vm voice)
       then yield (Event 0 None (StVoiceNotFound voice) None)
       else
         start_time <- py_time c ;;
         yield (Event 10 None StLoadingReference None) ;;;
         ref <- load_reference c vm voice ;;
         let ref_text := fst ref in
         let ref_codes := snd ref in
         let chunks := split_text_into_chunks c text in
         let total_chunks := Z.of_nat (length chunks) in
         if total_chunks =? 0 then raise (ValueError "No text to process")
         else
           let estimated_time := estimate_generation_time total_chunks in
           yield (Event 15 None
                    (StEstimate (format_time (inject_Z estimated_time))
                                total_chunks) None) ;;;
           chunk_results <- chunk_loop c start_time total_chunks ref_codes
                                       ref_text 1 chunks [] ;;
           match chunk_results with
           | [] => raise (ValueError "Failed to generate any audio")
           | _ :: _ =>
               yield (Event 90 None StFinalizing None) ;;;
               let processed_chunks := map snd (sort_by_index chunk_results) in
               all_wav <- lift (concatenate_chunks processed_chunks) ;;
               all_wav <- (if negb (Qeq_bool speed 1)
                           then lift (_apply_speed_adjustment all_wav speed)
                           else ret all_wav) ;;
               sf_write_output c all_wav ;;;
               now <- py_time c ;;
               let total_time := (now - start_time)%Q in
               yield (Event 100 (Some TEMP_OUTPUT_PATH)
                        (StComplete (format_time total_time)) None)
           end)
    (fun e => yield (Event 0 None (StErrorGenerating (exn_str e)) None)).

(** A job starts with nothing yielded; [out] is what the output file holds
    from earlier jobs. *)
Definition fresh (out : option audio) : gstate := GState [] 0 0 out.

(** The events among the actions of a run, in order. *)
Definition yielded (tr : list action) : list event :=
  omap (fun a => match a with Yield e => Some e | _ => None end) tr.

(** Running a job to the end: the events it yields and the final state. *)
Definition run_job (c : collab) (vm : voice_manager) (text : string)
    (voice_name : option string) (speed : Q) (out : option audio)
  : (exn + unit) * gstate :=
  generate_speech c vm text voice_name speed (fresh out).

(** ** Auxiliary definitions used in the statements *)


(** [base] is a candidate voice name of a scan: some listed name ends in
    [.txt] and has [base] as its [splitext] root. *)
Definition is_candidate (listing : list string) (base : string) : bool :=
  existsb (fun name => Str.endswith name ".txt"
                       && bool_decide (fst (Str.splitext name) = base))
          listing.

(** The artifact rule the scan applies to a candidate: the transcript and
    at least one of raw audio and encoding. *)
Definition has_artifacts (fs : gmap string file) (base : string) : bool :=
  path_exists fs (base +:+ ".txt")
  && (path_exists fs (base +:+ ".wav") || path_exists fs (base +:+ ".pt")).

(** The registry entry the scan makes for [base]. *)
Definition scanned_entry (fs : gmap string file) (base : string)
  : string * string :=
  (base +:+ ".txt",
   if path_exists fs (base +:+ ".wav") then base +:+ ".wav"
   else base +:+ ".pt").

(** The rule with "exactly one of raw audio and encoding" in place of
    "at least one". *)
Definition has_exactly_one_artifact (fs : gmap string file) (base : string)
  : bool :=
  path_exists fs (base +:+ ".txt")
  && xorb (path_exists fs (base +:+ ".wav")) (path_exists fs (base +:+ ".pt")).

(** What [load_reference] returns or raises, and the collaborator calls it
    makes; neither depends on the state it runs in. *)
Definition reference_of (c : collab) (vm : voice_manager) (voice_name : string)
  : exn + (string * codes) :=
  fst (load_reference c vm voice_name (fresh None)).

Definition reference_actions (c : collab) (vm : voice_manager)
    (voice_name : string) : list action :=
  trace (snd (load_reference c vm voice_name (fresh None))).

(** The index into the input that [_apply_speed_adjustment] selects for
    output position [k], for an input of length [len] and an output of
    length [target_length]. *)
Definition resample_index (len target_length k : Z) : Z :=
  np_round (if 0 <? target_length - 1
            then inject_Z k * (inject_Z (len - 1) / inject_Z (target_length - 1))
            else inject_Z k * inject_Z (len - 1))%Q.

(** Nearest-index selection of [target_length] samples of [wav]. *)
Definition resample (wav : audio) (target_length : Z) : audio :=
  (fun k => nth (Z.to_nat (resample_index (Z.of_nat (length wav))
                                          target_length k)) wav 0%Q)
    <$> seqZ 0 target_length.

(** The progress value of the event for chunk [i] of [total_chunks]. *)
Definition chunk_progress (total_chunks i : Z) : Z :=
  int_of_float (15 + inject_Z (75 * i) / inject_Z total_chunks)%Q.

(** The event yielded for chunk [i], when the clock is read for the
    [tick]-th time at that point. *)
Definition chunk_event (c : collab) (start_time : Q) (total_chunks i : Z)
    (tick : nat) : event :=
  Event (chunk_progress total_chunks i) None
    (if 1 <? i then
       StChunk i total_chunks (chunk_progress total_chunks i)
         (Some (format_time
                  ((time_time c tick - start_time) / inject_Z (i - 1)
                   * inject_Z (total_chunks - (i - 1)))%Q))
     else StChunk i total_chunks (chunk_progress total_chunks i) None)
    None.

(** The actions of the per-chunk loop from chunk [i] on. *)
Fixpoint loop_actions (c : collab) (start_time : Q) (total_chunks : Z)
    (ref_codes : codes) (ref_text : string) (i : Z) (tick : nat)
    (chunks : list string) : list action :=
  match chunks with
  | [] => []
  | chunk :: rest =>
      Yield (chunk_event c start_time total_chunks i tick)
      :: CallInfer chunk ref_codes ref_text
      :: loop_actions c start_time total_chunks ref_codes ref_text
           (i + 1) (S tick) rest
  end.

(** The results the per-chunk loop collects from chunk [i] on, when
    [call] calls of [infer] have been made before. *)
Fixpoint kept (c : collab) (ref_codes : codes) (ref_text : string) (i : Z)
    (call : nat) (chunks : list string) : list (Z * audio) :=
  match chunks with
  | [] => []
  | chunk :: rest =>
      match infer c call chunk ref_codes ref_text with
      | inr wav => (i - 1, wav) :: kept c ref_codes ref_text (i + 1) (S call) rest
      | inl _ => kept c ref_codes ref_text (i + 1) (S call) rest
      end
  end.

(** The exception handler of [generate_speech]. *)
Definition on_error (e : exn) : M unit :=
  yield (Event 0 None (StErrorGenerating (exn_str e)) None).

(** The part of [generate_speech] that follows the per-chunk loop. *)
Definition finish (c : collab) (start_time : Q) (speed : Q)
    (chunk_results : list (Z * audio)) : M unit :=
  match chunk_results with
  | [] => raise (ValueError "Failed to generate any audio")
  | _ :: _ =>
      yield (Event 90 None StFinalizing None) ;;;
      let processed_chunks := map snd (sort_by_index chunk_results) in
      all_wav <- lift (concatenate_chunks processed_chunks) ;;
      all_wav <- (if negb (Qeq_bool speed 1)
                  then lift (_apply_speed_adjustment all_wav speed)
                  else ret all_wav) ;;
      sf_write_output c all_wav ;;;
      now <- py_time c ;;
      let total_time := (now - start_time)%Q in
      yield (Event 100 (Some TEMP_OUTPUT_PATH)
               (StComplete (format_time total_time)) None)
  end.

(** The actions of a job up to the end of the per-chunk loop. *)
Definition job_prefix (c : collab) (vm : voice_manager) (text voice : string)
    (ref_text : string) (ref_codes : codes) : list action :=
  let chunks := split_text_into_chunks c text in
  let total_chunks := Z.of_nat (length chunks) in
  [Yield (Event 10 None StLoadingReference None)]
  ++ reference_actions c vm voice
  ++ [Yield (Event 15 None
               (StEstimate
                  (format_time (inject_Z (estimate_generation_time total_chunks)))
                  total_chunks) None)]
  ++ loop_actions c (time_time c 0) total_chunks ref_codes ref_text 1 1 chunks.

(** [joined silence [w1; ...; wn]] is [w1 ++ silence ++ ... ++ silence ++ wn]. *)
Fixpoint joined (gap : audio) (wavs : list audio) : audio :=
  match wavs with
  | [] => []
  | [w] => w
  | w :: rest => w ++ gap ++ joined gap rest
  end.

(** The statuses of the terminal events. *)
Definition is_error_status (st : status_message) : bool :=
  match st with
  | StEmptyText | StNoVoice | StVoiceNotFound _ | StErrorGenerating _ => true
  | _ => false
  end.

Definition is_success_status (st : status_message) : bool :=
  match st with
  | StComplete _ => true
  | _ => false
  end.

(** A terminal event: success with progress 100 and the output path, or
    error with progress 0 and no path. *)
Definition terminal (e : event) : Prop :=
  (is_success_status (status e) = true /\ progress e = 100
   /\ audio_path e = Some TEMP_OUTPUT_PATH)
  \/ (is_error_status (status e) = true /\ progress e = 0
      /\ audio_path e = None).

(** An event that reports progress and ends nothing. *)
Definition intermediate (e : event) : Prop :=
  is_success_status (status e) = false /\ is_error_status (status e) = false
  /\ audio_path e = None /\ 10 <= progress e <= 90.

(** [sf.write] calls among the actions. *)
Definition is_write (a : action) : bool :=
  match a with
  | CallSfWrite _ => true
  | _ => false
  end.

(** The indices of the chunks that survive when chunk [k] (counted from 0)
    is the only one to fail, out of [n]. *)
Definition survivors (k n : nat) : list nat :=
  filter (fun j => j <> k) (seq 0 n).

(** The waveform assembled from the surviving chunks: their audio in index
    order, one silence between neighbours. *)
Definition assembled (wav_of : nat -> audio) (k n : nat) : audio :=
  joined silence (wav_of <$> survivors k n).

(** The number of [infer] calls made before the event for chunk [i] is
    yielded ([None] if no such event is yielded). *)
Fixpoint infer_calls_before (i : Z) (tr : list action) : option nat :=
  match tr with
  | [] => None
  | Yield (Event _ _ (StChunk j _ _ _) _) :: tr' =>
      if j =? i then Some 0%nat else infer_calls_before i tr'
  | CallInfer _ _ _ :: tr' => S <$> infer_calls_before i tr'
  | _ :: tr' => infer_calls_before i tr'
  end.

(** ** Example inputs *)

(** A directory holding all three artifacts of the voice [x]. *)
Definition three_artifacts : gmap string file :=
  list_to_map [("x.txt", TextFile "hello");
               ("x.wav", AudioFile [1 # 2; 1 # 4]%Q);
               ("x.pt", CodesFile [7; 9])].

(** An upload, and a model whose collaborators all succeed. *)
Definition demo_collab : collab :=
  Build_collab
    (fun _ => inr [3; 1; 4])
    (fun k _ _ _ => inr [Z.of_nat k # 1; 1 # 3]%Q)
    (fun _ => ["one"; "two"; "three"])
    (fun n => Z.of_nat n # 2)%Q
    (fun _ => None)
    (fun path => if bool_decide (path = "upload.wav")
                 then Some (AudioFile [1 # 8]%Q) else None).

(** A model whose second [infer] call raises. *)
Definition second_fails : collab :=
  Build_collab
    (fun _ => inr [3; 1; 4])
    (fun k _ _ _ => if (k =? 1)%nat then inl (CollaboratorError "boom")
                    else inr [Z.of_nat k # 1; 1 # 3]%Q)
    (fun _ => ["one"; "two"; "three"])
    (fun n => Z.of_nat n # 2)%Q
    (fun _ => None)
    (fun _ => None).

(** A model whose [infer] always raises, and a registry holding [x]. *)
Definition always_fails : collab :=
  Build_collab
    (fun _ => inr [3; 1; 4])
    (fun _ _ _ _ => inl (CollaboratorError "boom"))
    (fun _ => ["one"; "two"; "three"])
    (fun n => Z.of_nat n # 2)%Q
    (fun _ => None)
    (fun _ => None).

Definition registry_x : voice_manager :=
  VoiceManager [("x", ("x.txt", "x.wav"))] three_artifacts.

(** ** States of the voice manager reachable in a session *)





(** A model whose [encode_reference] raises. *)
Definition cannot_encode : collab :=
  Build_collab
    (fun _ => inl (CollaboratorError "bad audio"))
    (fun k _ _ _ => inr [Z.of_nat k # 1; 1 # 3]%Q)
    (fun _ => ["one"; "two"; "three"])
    (fun n => Z.of_nat n # 2)%Q
    (fun _ => None)
    (fun path => if bool_decide (path = "upload.wav")
                 then Some (AudioFile [1 # 8]%Q) else None).

(** A directory holding a voice [z] with transcript and encoding only. *)
Definition encoding_only : gmap string file :=
  list_to_map [("z.txt", TextFile " hi there "); ("z.pt", CodesFile [2; 7])].

(** ** What a job asks of the model *)

(** The result of [infer] on each chunk of a job, in chunk order. *)
Definition outcomes (c : collab) (ref_codes : codes) (ref_text : string)
    (chunks : list string) : list (exn + audio) :=
  imap (fun k chunk => infer c k chunk ref_codes ref_text) chunks.

(** The audio of the chunks on which [infer] returned, in chunk order. *)
Definition successes (c : collab) (ref_codes : codes) (ref_text : string)
    (chunks : list string) : list audio :=
  omap (fun r : exn + audio =>
          match r with inr wav => Some wav | inl _ => None end)
       (outcomes c ref_codes ref_text chunks).

(** The arguments of the [infer] calls among the actions, in order. *)
Definition infer_requests (tr : list action)
  : list (string * codes * string) :=
  omap (fun a => match a with
                 | CallInfer chunk ref_codes ref_text =>
                     Some (chunk, ref_codes, ref_text)
                 | _ => None
                 end) tr.

(** The paths given to [encode_reference] and [torch.load] among the
    actions, in order. *)
Definition reference_requests (tr : list action) : list string :=
  omap (fun a => match a with
                 | CallEncodeReference path | CallTorchLoad path => Some path
                 | _ => None
                 end) tr.

(** The waveforms given to [sf.write] among the actions, in order. *)
Definition write_requests (tr : list action) : list audio :=
  omap (fun a => match a with
                 | CallSfWrite wav => Some wav
                 | _ => None
                 end) tr.


(** ** core/model_manager.py *)

(** The operating system as the start-up code sees it: directory listings
    (which may raise), the [os.path] tests and [os.path.join], and where
    the project is installed. *)
Record os_model := OsModel {
  os_listdir_at : string -> exn + list string;
  os_path_isdir : string -> bool;
  os_path_exists : string -> bool;
  os_path_join : string -> string -> string;
  (** [str(MODEL_BACKBONE_LOCAL)], that is [PROJECT_ROOT/Models/neutts-air] *)
  MODEL_BACKBONE_LOCAL : string
}.

Definition MODEL_BACKBONE_REPO : string := "neutts-air-q4-gguf".

(** The inner loop of [_resolve_hf_snapshot]: the first snapshot that has
    a [config.json]. *)
Fixpoint first_snapshot (os : os_model) (snapshots_dir : string)
    (snaps : list string) : option string :=
  match snaps with
  | [] => None
  | snap :: rest =>
      let snap_path := os_path_join os snapshots_dir snap in
      let cfg := os_path_join os snap_path "config.json" in
      if os_path_exists os cfg then Some snap_path
      else first_snapshot os snapshots_dir rest
  end.

(** The outer loop of [_resolve_hf_snapshot]: [inr (Some p)] when it
    returns [p], [inr None] when it runs to its end, [inl e] when a
    listing raises. *)
Fixpoint scan_models (os : os_model) (root_path : string)
    (names : list string) : exn + option string :=
  match names with
  | [] => inr None
  | name :: rest =>
      if String.prefix "models--" name then
        let models_dir := os_path_join os root_path name in
        let snapshots_dir := os_path_join os models_dir "snapshots" in
        if os_path_isdir os snapshots_dir then
          match os_listdir_at os snapshots_dir with
          | inl e => inl e
          | inr snaps =>
              match first_snapshot os snapshots_dir snaps with
              | Some snap_path => inr (Some snap_path)
              | None => scan_models os root_path rest
              end
          end
        else scan_models os root_path rest
      else scan_models os root_path rest
  end.

Definition _resolve_hf_snapshot (os : os_model) (root_path : string)
  : string :=
  match os_listdir_at os root_path with
  | inl _ => root_path
  | inr names =>
      match scan_models os root_path names with
      | inr (Some snap_path) => snap_path
      | inr None => root_path
      | inl _ => root_path
      end
  end.

(** What [get_model] raises. *)
Inductive mm_error :=
| RuntimeError (msg : string).

Section ModelManager.

(** The model object that [NeuTTSAir(...)] builds. *)
Context {Model : Type}.

(** [NeuTTSAir(backbone_repo=..., ...)], as a function of the backbone
    argument; the other arguments are constants. *)
Variable NeuTTSAir : string -> exn + Model.

Record model_manager := ModelManager {
  model : option Model;
  _initialized : bool
}.

(** [ModelManager()] *)
Definition new_model_manager : model_manager := ModelManager None false.

(** [initialize_model]: the value returned, the manager afterwards and the
    backbone arguments [NeuTTSAir] was called with. *)
Definition initialize_model (os : os_model) (mm : model_manager)
  : bool * model_manager * list string :=
  if _initialized mm then (true, mm, [])
  else
    let backbone_arg :=
      if os_path_isdir os (MODEL_BACKBONE_LOCAL os)
      then _resolve_hf_snapshot os (MODEL_BACKBONE_LOCAL os)
      else MODEL_BACKBONE_REPO in
    match NeuTTSAir backbone_arg with
    | inr m => (true, ModelManager (Some m) true, [backbone_arg])
    | inl _ => (false, mm, [backbone_arg])
    end.

Definition get_model (mm : model_manager) : mm_error + Model :=
  if negb (_initialized mm) then
    inl (RuntimeError "Model not initialized. Call initialize_model() first.")
  else
    match model mm with
    | None =>
        inl (RuntimeError
               "Model not initialized. Call initialize_model() first.")
    | Some m => inr m
    end.

Definition is_initialized (mm : model_manager) : bool := _initialized mm.

(** The states a manager goes through: created, then any number of
    [initialize_model] calls. *)
Inductive mm_reachable (os : os_model) : model_manager -> Prop :=
| mm_new : mm_reachable os new_model_manager
| mm_init mm :
    mm_reachable os mm -> mm_reachable os (initialize_model os mm).1.2.

End ModelManager.

(** A machine with one cached model snapshot under [/m], and a model
    constructor that accepts only that snapshot. *)
Definition demo_os : os_model :=
  OsModel
    (fun path =>
       if bool_decide (path = "/m") then inr ["readme"; "models--neutts"]
       else if bool_decide (path = "/m/models--neutts/snapshots")
            then inr ["abc"]
            else inr [])
    (fun path => bool_decide (path = "/m")
                 || bool_decide (path = "/m/models--neutts/snapshots"))
    (fun path =>
       bool_decide (path = "/m/models--neutts/snapshots/abc/config.json"))
    (fun a b => a +:+ "/" +:+ b)
    "/m".

Definition demo_constructor (backbone : string) : exn + nat :=
  if bool_decide (backbone = "/m/models--neutts/snapshots/abc") then inr 7%nat
  else inl (CollaboratorError "no such model").

(** ** utils/system_check.py *)

(** What the dependency check asks of the system beyond [os_model]. *)
Record sys_model := SysModel {
  sys_os : os_model;
  (** [shutil.which(cmd)] *)
  shutil_which : string -> option string;
  (** [os.path.dirname(path)] *)
  os_path_dirname : string -> string;
  (** the directories [os.walk(path)] visits, in order *)
  os_walk : string -> list string
}.

(** The two variables of [os.environ] the check reads or writes. *)
Record environ := Environ {
  PHONEMIZER_ESPEAK_LIBRARY : option string;
  PATH : option string
}.

Inductive sys_error :=
| KeyError (key : string).

Definition ESPEAK_POSSIBLE_PATHS : list string :=
  ["C:\Program Files\eSpeak NG";
   "C:\Program Files (x86)\eSpeak NG";
   "C:\Program Files\eSpeak";
   "C:\Program Files (x86)\eSpeak"].

Definition ESPEAK_DLL_NAMES : list string :=
  ["libespeak-ng.dll"; "espeak-ng.dll"; "libespeak.dll"; "espeak.dll"].

Definition ESPEAK_COMMANDS : list string := ["espeak-ng"; "espeak"].

(** [if exe_path:] for what [shutil.which] returned *)
Definition on_path (sys : sys_model) (cmd : string) : bool :=
  negb (not_provided (shutil_which sys cmd)).

(** The first loop: is some eSpeak executable on the search path? *)
Definition found_exe_in_path (sys : sys_model) : bool :=
  fold_left (fun found cmd => if on_path sys cmd then true else found)
            ESPEAK_COMMANDS false.

(** [for dll in ESPEAK_DLL_NAMES]: the first library file present in
    [dir]. *)
Fixpoint find_dll (sys : sys_model) (dir : string) (dlls : list string)
  : option string :=
  match dlls with
  | [] => None
  | dll :: rest =>
      let candidate := os_path_join (sys_os sys) dir dll in
      if os_path_exists (sys_os sys) candidate then Some candidate
      else find_dll sys dir rest
  end.

(** The second loop: a library next to an executable of the search path. *)
Fixpoint search_exe_dirs (sys : sys_model) (cmds : list string)
  : option string :=
  match cmds with
  | [] => None
  | exe_cmd :: rest =>
      if on_path sys exe_cmd then
        let exe_dir :=
          os_path_dirname sys (default EmptyString (shutil_which sys exe_cmd)) in
        match find_dll sys exe_dir ESPEAK_DLL_NAMES with
        | Some candidate => Some candidate
        | None => search_exe_dirs sys rest
        end
      else search_exe_dirs sys rest
  end.

(** [for root, _, files in os.walk(path)]: a library in a visited
    directory. *)
Fixpoint search_roots (sys : sys_model) (roots : list string)
  : option string :=
  match roots with
  | [] => None
  | root :: rest =>
      match find_dll sys root ESPEAK_DLL_NAMES with
      | Some candidate => Some candidate
      | None => search_roots sys rest
      end
  end.

(** How the third loop ends: by [return True], by running out or
    [break], or by an exception. *)
Inductive loop_end :=
| Returned (env : environ)
| FellThrough (env : environ)
| Raised (e : sys_error) (env : environ).

(** [os.environ['PATH'] = f"{path};{os.environ['PATH']}"] *)
Definition prepend_to_path (path : string) (env : environ)
  : sys_error + environ :=
  match PATH env with
  | None => inl (KeyError "PATH")
  | Some old =>
      inr (Environ (PHONEMIZER_ESPEAK_LIBRARY env)
                   (Some (path +:+ ";" +:+ old)))
  end.

(** The third loop: the common installation directories. *)
Fixpoint search_install_dirs (sys : sys_model) (paths : list string)
    (env : environ) : loop_end :=
  match paths with
  | [] => FellThrough env
  | path :: rest =>
      if os_path_exists (sys_os sys) path then
        match search_roots sys (os_walk sys path) with
        | Some candidate =>
            let env1 := Environ (Some candidate) (PATH env) in
            match prepend_to_path path env1 with
            | inl e => Raised e env1
            | inr env2 => Returned env2
            end
        | None =>
            let bin_path := os_path_join (sys_os sys) path "espeak-ng.exe" in
            if os_path_exists (sys_os sys) bin_path then
              match prepend_to_path path env with
              | inl e => Raised e env
              | inr env1 => FellThrough env1
              end
            else search_install_dirs sys rest env
        end
      else search_install_dirs sys rest env
  end.

Definition check_espeak_installed (sys : sys_model) (env : environ)
  : (sys_error + bool) * environ :=
  let found_exe_in_path := found_exe_in_path sys in
  match search_exe_dirs sys ESPEAK_COMMANDS with
  | Some candidate => (inr true, Environ (Some candidate) (PATH env))
  | None =>
      match search_install_dirs sys ESPEAK_POSSIBLE_PATHS env with
      | Returned env' => (inr true, env')
      | Raised e env' => (inl e, env')
      | FellThrough env' =>
          if found_exe_in_path then (inr true, env') else (inr false, env')
      end
  end.

Definition verify_system_requirements (sys : sys_model) (env : environ)
  : (sys_error + bool) * environ :=
  match check_espeak_installed sys env with
  | (inr false, env') => (inr false, env')
  | (inr true, env') => (inr true, env')
  | (inl e, env') => (inl e, env')
  end.

(** A machine with [espeak] on the search path and no library file. *)
Definition demo_sys : sys_model :=
  SysModel demo_os
    (fun cmd => if bool_decide (cmd = "espeak") then Some "C:\bin\espeak.exe"
                else None)
    (fun _ => "C:\bin")
    (fun _ => []).

(** A library variable is either untouched or names a library file that
    exists. *)
Definition library_set_soundly (sys : sys_model) (env env' : environ)
  : Prop :=
  PHONEMIZER_ESPEAK_LIBRARY env' = PHONEMIZER_ESPEAK_LIBRARY env
  \/ exists dir dll,
      dll ∈ ESPEAK_DLL_NAMES
      /\ PHONEMIZER_ESPEAK_LIBRARY env'
         = Some (os_path_join (sys_os sys) dir dll)
      /\ os_path_exists (sys_os sys) (os_path_join (sys_os sys) dir dll)
         = true.

(** ** What the handlers send to the voice drop-down *)

(** An update returned with the state [vm'] of a manager that was [vm]
    before the call keeps the drop-down in step with the registry:
    [gr.update()] is sent only when the registry did not change, and
    [gr.update(choices=..., value=...)] carries the whole voice list and a
    selection taken from it ([None] only for an empty list). *)
Definition update_in_step (vm vm' : voice_manager) (upd : gr_update) : Prop :=
  match upd with
  | GrNoUpdate => voices vm' = voices vm
  | GrUpdate choices value =>
      choices = get_voice_list vm'
      /\ match value with
         | Some v => v ∈ choices
         | None => choices = []
         end
  end.

(** ** main.py *)

Section Main.

Context {Model : Type}.
Variable NeuTTSAir : string -> exn + Model.

(** How [main] ends before the interface is built: by [sys.exit(code)], by
    an exception of the system check or of [get_model], or by reaching
    [create_interface(voice_manager, speech_generator)] with a voice
    manager built over [vm_model] and a generator over [sg_model]. *)
Inductive main_end :=
| SysExit (code : Z)
| SysCheckRaised (e : sys_error)
| GetModelRaised (e : mm_error)
| CreateInterface (vm_model : Model) (vm : voice_manager) (sg_model : Model).

(** [main], up to the call of [create_interface]: how it ends, the
    environment it leaves and the backbone arguments [NeuTTSAir] was
    called with.  [disk] is the samples directory at start-up. *)
Definition main (sys : sys_model) (env : environ) (disk : gmap string file)
  : main_end * environ * list string :=
  match verify_system_requirements sys env with
  | (inl e, env') => (SysCheckRaised e, env', [])
  | (inr false, env') => (SysExit 1, env', [])
  | (inr true, env') =>
      let model_manager := new_model_manager in
      let r := initialize_model NeuTTSAir (sys_os sys) model_manager in
      let model_manager := r.1.2 in
      if negb r.1.1 then (SysExit 1, env', r.2)
      else
        match get_model model_manager with
        | inl e => (GetModelRaised e, env', r.2)
        | inr vm_model =>
            (* VoiceManager(tts_model): self.voices = {"samples": {}};
               self.load_voices() *)
            let voice_manager := load_voices (VoiceManager [] disk) in
            match get_model model_manager with
            | inl e => (GetModelRaised e, env', r.2)
            | inr sg_model =>
                (CreateInterface vm_model voice_manager sg_model, env', r.2)
            end
        end
  end.

End Main.

(** * Properties *)

(** Two artifact names of one voice with different extensions differ. *)
Ltac ext_ne :=
  let E := fresh "E" in
  intros E; apply (inj (String.app _)) in E; discriminate E.

(** ** Strings *)

Lemma endswith_refl s : Str.endswith s s = true.
Proof. destruct s; simpl; [done | by rewrite bool_decide_eq_true_2]. Qed.

Lemma endswith_app b suffix : Str.endswith (b +:+ suffix) suffix = true.
Proof.
  induction b as [|a b IH]; simpl.
  - apply endswith_refl.
  - case_bool_decide; [done | exact IH].
Qed.

Lemma endswith_inv s suffix :
  Str.endswith s suffix = true -> exists b, s = b +:+ suffix.
Proof.
  induction s as [|a s IH]; simpl; case_bool_decide as E; intros H.
  - exists EmptyString. by rewrite <- E.
  - discriminate.
  - exists EmptyString. by rewrite <- E.
  - destruct (IH H) as [b ->]. by exists (String a b).
Qed.



Lemma rfind_dot_txt b :
  Str.rfind_dot (b +:+ ".txt") = Some (String.length b).
Proof. induction b as [|a b IH]; simpl; [done|]. by rewrite IH. Qed.

Lemma substring_prefix b s :
  String.substring 0 (String.length b) (b +:+ s) = b.
Proof.
  induction b as [|a b IH]; simpl.
  - by destruct s.
  - by rewrite IH.
Qed.

Lemma splitext_txt b :
  fst (Str.splitext (b +:+ ".txt"))
  = if Str.all_dots b then b +:+ ".txt" else b.
Proof.
  unfold Str.splitext. rewrite rfind_dot_txt, substring_prefix.
  by destruct (Str.all_dots b).
Qed.

(** A name that is not made of dots only is the candidate of its own
    transcript file. *)
Lemma candidate_of_transcript listing base :
  (base +:+ ".txt") ∈ listing ->
  Str.all_dots base = false ->
  is_candidate listing base = true.
Proof.
  intros Hin Hd. apply existsb_exists. exists (base +:+ ".txt").
  split; [by apply list_elem_of_In|].
  rewrite endswith_app, splitext_txt, Hd. simpl.
  by apply bool_decide_eq_true_2.
Qed.

(** ** Dictionaries *)

Lemma dict_get_set_eq {V} (d : Dict.t V) k v :
  Dict.get (Dict.set d k v) k = Some v.
Proof.
  induction d as [|[k' v'] d IH]; simpl.
  - by rewrite bool_decide_eq_true_2.
  - case_bool_decide as E; simpl.
    + by rewrite bool_decide_eq_true_2.
    + by rewrite bool_decide_eq_false_2.
Qed.

Lemma dict_get_set_ne {V} (d : Dict.t V) k k' v :
  k <> k' -> Dict.get (Dict.set d k v) k' = Dict.get d k'.
Proof.
  intros Hne. induction d as [|[k0 v0] d IH]; simpl.
  - by rewrite bool_decide_eq_false_2.
  - case_bool_decide as E; simpl.
    + subst k0. by rewrite !bool_decide_eq_false_2.
    + by rewrite IH.
Qed.

Lemma dict_del_set_fresh {V} (d : Dict.t V) k v :
  Dict.mem d k = false -> Dict.del (Dict.set d k v) k = d.
Proof.
  unfold Dict.mem. induction d as [|[k' v'] d IH]; simpl.
  - by rewrite bool_decide_eq_true_2.
  - case_bool_decide as E; [done|]. intros H. simpl.
    rewrite bool_decide_eq_false_2 by done. by rewrite IH.
Qed.

Lemma dict_mem_set {V} (d : Dict.t V) k v : Dict.mem (Dict.set d k v) k = true.
Proof. unfold Dict.mem. by rewrite dict_get_set_eq. Qed.

(** ** Scanning the samples directory *)

Lemma os_listdir_lists_dir fs : lists_dir (os_listdir fs) fs.
Proof.
  intros name. unfold os_listdir. rewrite list_elem_of_fmap. split.
  - intros [[k v] [-> H]]. apply elem_of_map_to_list in H. by exists v.
  - intros [v H]. exists (name, v). split; [done|].
    by apply elem_of_map_to_list.
Qed.

Lemma scan_entry_get fs samples name base :
  Dict.get (scan_entry fs samples name) base
  = if Str.endswith name ".txt"
       && bool_decide (fst (Str.splitext name) = base)
       && has_artifacts fs base
    then Some (scanned_entry fs base)
    else Dict.get samples base.
Proof.
  unfold scan_entry, has_artifacts, scanned_entry.
  destruct (Str.endswith name ".txt"); simpl; [|done].
  case_bool_decide as E; simpl.
  - subst base. set (b := fst (Str.splitext name)).
    destruct (path_exists fs (b +:+ ".txt")); simpl; [|done].
    destruct (path_exists fs (b +:+ ".wav")); simpl.
    + apply dict_get_set_eq.
    + destruct (path_exists fs (b +:+ ".pt")); [apply dict_get_set_eq | done].
  - set (b := fst (Str.splitext name)) in *.
    destruct (path_exists fs (b +:+ ".txt")
              && (path_exists fs (b +:+ ".wav") || path_exists fs (b +:+ ".pt")));
      [by apply dict_get_set_ne | done].
Qed.

Lemma scan_fold_get fs listing samples base :
  Dict.get (fold_left (scan_entry fs) listing samples) base
  = if is_candidate listing base && has_artifacts fs base
    then Some (scanned_entry fs base)
    else Dict.get samples base.
Proof.
  revert samples. induction listing as [|name listing IH]; intros samples.
  - done.
  - simpl fold_left. rewrite IH, scan_entry_get.
    change (is_candidate (name :: listing) base)
      with (Str.endswith name ".txt"
            && bool_decide (fst (Str.splitext name) = base)
            || is_candidate listing base).
    destruct (is_candidate listing base), (has_artifacts fs base),
      (Str.endswith name ".txt"
       && bool_decide (fst (Str.splitext name) = base)); done.
Qed.

Lemma load_voices_in_get listing vm base :
  Dict.get (voices (load_voices_in listing vm)) base
  = if is_candidate listing base && has_artifacts (samples_dir vm) base
    then Some (scanned_entry (samples_dir vm) base)
    else None.
Proof. unfold load_voices_in. simpl. by rewrite scan_fold_get. Qed.

(** A name that no listed transcript yields is never registered. *)
Lemma load_voices_only_candidates listing vm base :
  voice_exists (load_voices_in listing vm) base = true ->
  is_candidate listing base = true.
Proof.
  unfold voice_exists, Dict.mem. rewrite load_voices_in_get.
  by destruct (is_candidate listing base).
Qed.

(** C2, as amended: for every candidate voice name, the scan registers the
    voice if and only if the directory holds its transcript and at least
    one of its raw audio and its encoding (both may be present); any other
    candidate is left out, and the scan has no error result. *)
Theorem load_voices_includes_iff_artifacts listing vm base :
  is_candidate listing base = true ->
  voice_exists (load_voices_in listing vm) base = true
  <-> has_artifacts (samples_dir vm) base = true.
Proof.
  intros Hc. unfold voice_exists, Dict.mem.
  rewrite load_voices_in_get, Hc. simpl.
  by destruct (has_artifacts (samples_dir vm) base).
Qed.

Lemma load_voices_includes_iff_artifacts_witness :
  is_candidate (os_listdir three_artifacts) "x" = true
  /\ (voice_exists (load_voices_in (os_listdir three_artifacts)
                                    (VoiceManager [] three_artifacts)) "x"
      = true
      <-> has_artifacts (samples_dir (VoiceManager [] three_artifacts)) "x"
          = true).
Proof.
  split; [by vm_compute|].
  apply (load_voices_includes_iff_artifacts
           (os_listdir three_artifacts) (VoiceManager [] three_artifacts) "x").
  by vm_compute.
Defined.

(** C2, as stated: with "exactly one of raw audio and encoding" the rule
    fails on a voice that has both, which the scan registers. *)
Lemma scan_registers_voice_with_both_artifacts :
  ~ (forall listing vm base,
       is_candidate listing base = true ->
       voice_exists (load_voices_in listing vm) base = true
       <-> has_exactly_one_artifact (samples_dir vm) base = true).
Proof.
  intros H.
  specialize (H (os_listdir three_artifacts)
                (VoiceManager [] three_artifacts) "x").
  assert (Hc : is_candidate (os_listdir three_artifacts) "x" = true)
    by (by vm_compute).
  destruct (H Hc) as [H1 _].
  assert (Hv : voice_exists
                 (load_voices_in (os_listdir three_artifacts)
                                 (VoiceManager [] three_artifacts)) "x" = true)
    by (by vm_compute).
  assert (Hx : has_exactly_one_artifact
                 (samples_dir (VoiceManager [] three_artifacts)) "x" = false)
    by (by vm_compute).
  specialize (H1 Hv). rewrite Hx in H1. discriminate H1.
Qed.

(** ** Cloning and deleting voices *)

Lemma unlink_if_exists_delete fs path :
  unlink_if_exists fs path = delete path fs.
Proof.
  unfold unlink_if_exists, path_exists.
  destruct (fs !! path) eqn:E; [done|]. symmetry. by apply delete_id.
Qed.

(** What a successful [clone_voice] has checked and done. *)
Lemma clone_voice_success c new_name ref_text audio_file vm name upd vm1 :
  clone_voice c new_name ref_text audio_file vm = ((StCloned name, upd), vm1) ->
  blank new_name = false /\ blank ref_text = false
  /\ not_provided audio_file = false /\ voice_exists vm new_name = false
  /\ name = new_name
  /\ exists f ref_codes,
      read_upload c (default EmptyString audio_file) = Some f
      /\ encode_reference c f = inr ref_codes
      /\ vm1 = VoiceManager
                 (Dict.set (voices vm) new_name
                           (new_name +:+ ".txt", new_name +:+ ".pt"))
                 (<[new_name +:+ ".pt" := CodesFile ref_codes]>
                    (<[new_name +:+ ".wav" := f]>
                       (<[new_name +:+ ".txt" := TextFile (Str.strip ref_text)]>
                          (samples_dir vm)))).
Proof.
  unfold clone_voice.
  destruct (blank new_name); [intros H; inversion H|].
  destruct (blank ref_text); [intros H; inversion H|].
  destruct (not_provided audio_file); [intros H; inversion H|].
  destruct (voice_exists vm new_name); [intros H; inversion H|].
  destruct (read_upload c _) as [f|] eqn:Hf; [|intros H; inversion H].
  destruct (encode_reference c f) as [e|ref_codes] eqn:He;
    intros H; inversion H.
  split_and!; try done. by exists f, ref_codes.
Qed.

(** C8: after a successful [clone_voice] of a fresh name, [delete_voice]
    of that name succeeds and restores the registry: the dictionary, and
    so the voice list returned, are those from before the clone, none of
    the files [name.txt], [name.wav], [name.pt] remains, and every other
    file is as it was. *)
Theorem clone_then_delete_restores c vm new_name ref_text audio_file upd vm1 :
  voice_exists vm new_name = false ->
  clone_voice c new_name ref_text audio_file vm
  = ((StCloned new_name, upd), vm1) ->
  exists vm2,
    delete_voice new_name vm1
    = ((StDeleted new_name,
        GrUpdate (get_voice_list vm) (head (get_voice_list vm))), vm2)
    /\ voices vm2 = voices vm
    /\ get_voice_list vm2 = get_voice_list vm
    /\ samples_dir vm2 !! (new_name +:+ ".txt") = None
    /\ samples_dir vm2 !! (new_name +:+ ".wav") = None
    /\ samples_dir vm2 !! (new_name +:+ ".pt") = None
    /\ forall path,
        path <> new_name +:+ ".txt" -> path <> new_name +:+ ".wav" ->
        path <> new_name +:+ ".pt" ->
        samples_dir vm2 !! path = samples_dir vm !! path.
Proof.
  intros Hfresh Hclone.
  apply clone_voice_success in Hclone
    as (_ & _ & _ & _ & _ & f & ref_codes & _ & _ & ->).
  unfold delete_voice, voice_exists, get_voice_list. cbn [voices samples_dir].
  rewrite dict_mem_set. cbn [negb fold_left].
  rewrite !unlink_if_exists_delete.
  rewrite dict_del_set_fresh by exact Hfresh.
  eexists. split; [reflexivity|]. cbn [voices samples_dir].
  split_and!; try done.
  - rewrite lookup_delete_ne by ext_ne. rewrite lookup_delete_ne by ext_ne.
    apply lookup_delete_eq.
  - rewrite lookup_delete_ne by ext_ne. apply lookup_delete_eq.
  - apply lookup_delete_eq.
  - intros path H1 H2 H3.
    rewrite !lookup_delete_ne, !lookup_insert_ne by done. done.
Qed.

Lemma clone_then_delete_restores_witness :
  exists vm2,
    delete_voice "y"
      (snd (clone_voice demo_collab "y" "said this" (Some "upload.wav")
              (VoiceManager [("x", ("x.txt", "x.wav"))] three_artifacts)))
    = ((StDeleted "y", GrUpdate ["x"] (Some "x")), vm2)
    /\ voices vm2 = [("x", ("x.txt", "x.wav"))].
Proof.
  destruct (clone_then_delete_restores demo_collab
              (VoiceManager [("x", ("x.txt", "x.wav"))] three_artifacts)
              "y" "said this" (Some "upload.wav")
              (GrUpdate ["x"; "y"] (Some "y"))
              (snd (clone_voice demo_collab "y" "said this" (Some "upload.wav")
                      (VoiceManager [("x", ("x.txt", "x.wav"))]
                                    three_artifacts))))
    as (vm2 & H1 & H2 & _).
  - by vm_compute.
  - by vm_compute.
  - exists vm2. split; [exact H1 | exact H2].
Defined.



(** An audio path that is given but cannot be read is not caught by the
    validation: the transcript is written before the copy raises, and the
    registry is left as it was. *)
Lemma clone_voice_unreadable_audio c vm new_name ref_text path :
  blank new_name = false -> blank ref_text = false ->
  Str.truthy path = true -> voice_exists vm new_name = false ->
  read_upload c path = None ->
  clone_voice c new_name ref_text (Some path) vm
  = ((StErrorCloning (exn_str (FileNotFoundError path)), GrNoUpdate),
     VoiceManager (voices vm)
       (<[new_name +:+ ".txt" := TextFile (Str.strip ref_text)]>
          (samples_dir vm))).
Proof.
  intros H1 H2 H3 H4 H5. unfold clone_voice, not_provided.
  rewrite H1, H2, H3, H4. cbn [negb default from_option id]. by rewrite H5.
Qed.

(** ** Loading a reference *)

Lemma load_reference_run c vm voice_name s :
  load_reference c vm voice_name s
  = (reference_of c vm voice_name,
     GState (trace s ++ reference_actions c vm voice_name)
            (ticks s) (infer_calls s) (temp_output s)).
Proof.
  unfold reference_of, reference_actions, load_reference.
  destruct s as [tr tk ic out].
  destruct (Dict.get (voices vm) voice_name) as [[txt_path audio_or_pt]|];
    [|cbn; by rewrite app_nil_r].
  unfold bind, lift, read_text.
  destruct (samples_dir vm !! txt_path) as [[t|a|cd]|];
    try (cbn; by rewrite app_nil_r).
  destruct (Str.endswith audio_or_pt ".pt");
    unfold torch_load, tts_encode_reference, bind, log, lift, ret, raise, fresh;
    cbn [trace ticks infer_calls temp_output app];
    destruct (samples_dir vm !! audio_or_pt) as [[t'|a'|cd']|]; try done;
    by destruct (encode_reference c _).
Qed.




(** ** Chunk synthesis *)

Lemma process_chunk_run c chunk ref_codes ref_text s :
  process_chunk c chunk ref_codes ref_text s
  = (inr (match infer c (infer_calls s) chunk ref_codes ref_text with
          | inr wav => Some wav
          | inl _ => None
          end),
     GState (trace s ++ [CallInfer chunk ref_codes ref_text])
            (ticks s) (S (infer_calls s)) (temp_output s)).
Proof.
  unfold process_chunk, try_except, bind, tts_infer, ret.
  by destruct (infer c (infer_calls s) chunk ref_codes ref_text).
Qed.

(** C4: when the model's [infer] raises on a chunk, [process_chunk]
    returns [None] without raising, and it has called [infer] exactly
    once: one call is added to the trace and to the call count, there is
    no retry. *)
Theorem process_chunk_swallows_error c chunk ref_codes ref_text s e :
  infer c (infer_calls s) chunk ref_codes ref_text = inl e ->
  process_chunk c chunk ref_codes ref_text s
  = (inr None,
     GState (trace s ++ [CallInfer chunk ref_codes ref_text])
            (ticks s) (S (infer_calls s)) (temp_output s)).
Proof. intros H. by rewrite process_chunk_run, H. Qed.

Lemma process_chunk_swallows_error_witness :
  process_chunk second_fails "two" [3; 1; 4] "hello" (GState [] 2 1 None)
  = (inr None, GState [CallInfer "two" [3; 1; 4] "hello"] 2 2 None).
Proof.
  apply (process_chunk_swallows_error second_fails "two" [3; 1; 4] "hello"
           (GState [] 2 1 None) (CollaboratorError "boom")).
  reflexivity.
Defined.
(** ** Speed adjustment *)

Lemma np_round_bounds x lo hi :
  (inject_Z lo <= x)%Q -> (x <= inject_Z hi)%Q ->
  lo <= np_round x <= hi.
Proof.
  intros Hlo Hhi. unfold np_round.
  pose proof (Qfloor_le x) as Hf1. pose proof (Qlt_floor x) as Hf2.
  assert (Hl : lo <= Qfloor x).
  { rewrite <- (Qfloor_Z lo). by apply Qfloor_resp_le. }
  assert (Hh : Qfloor x <= hi).
  { rewrite <- (Qfloor_Z hi). by apply Qfloor_resp_le. }
  assert (Hup : (inject_Z (Qfloor x) < x)%Q -> Qfloor x + 1 <= hi).
  { intros Hlt. assert (inject_Z (Qfloor x) < inject_Z hi)%Q as Hz by lra.
    rewrite <- Zlt_Qlt in Hz. lia. }
  destruct (x - inject_Z (Qfloor x) ?= 1 # 2)%Q eqn:E.
  - apply Qeq_alt in E.
    destruct (Z.even (Qfloor x)); [lia|].
    split; [lia|]. apply Hup. lra.
  - lia.
  - apply Qgt_alt in E. split; [lia|]. apply Hup. lra.
Qed.

Lemma np_take_in_range (a : audio) indices :
  Forall (fun i => 0 <= i < Z.of_nat (length a)) indices ->
  np_take a indices = inr ((fun i => nth (Z.to_nat i) a 0%Q) <$> indices).
Proof.
  induction 1 as [|i indices Hi _ IH]; [done|].
  cbn [np_take fmap list_fmap].
  assert ((i <? 0) = false) as -> by lia.
  assert (((i <? 0) || (Z.of_nat (length a) <=? i)) = false) as -> by lia.
  rewrite IH.
  destruct (a !! Z.to_nat i) as [x|] eqn:E.
  - by rewrite (nth_lookup_Some _ _ _ _ E).
  - apply lookup_ge_None in E. lia.
Qed.

Lemma resample_index_in_range len target_length k :
  1 <= len -> 0 <= k < target_length ->
  0 <= resample_index len target_length k < len.
Proof.
  intros Hlen Hk. unfold resample_index.
  enough (0 <= np_round
                 (if 0 <? target_length - 1
                  then inject_Z k * (inject_Z (len - 1)
                                     / inject_Z (target_length - 1))
                  else inject_Z k * inject_Z (len - 1))%Q <= len - 1) by lia.
  assert (Hk0 : (0 <= inject_Z k)%Q)
    by (change 0%Q with (inject_Z 0); rewrite <- Zle_Qle; lia).
  assert (Hl0 : (0 <= inject_Z (len - 1))%Q)
    by (change 0%Q with (inject_Z 0); rewrite <- Zle_Qle; lia).
  destruct (0 <? target_length - 1) eqn:E.
  - apply Z.ltb_lt in E.
    assert (Hd : (0 < inject_Z (target_length - 1))%Q)
      by (change 0%Q with (inject_Z 0); rewrite <- Zlt_Qlt; lia).
    assert (Hkd : (inject_Z k <= inject_Z (target_length - 1))%Q)
      by (rewrite <- Zle_Qle; lia).
    set (q := (inject_Z (len - 1) / inject_Z (target_length - 1))%Q).
    assert (Hq0 : (0 <= q)%Q).
    { unfold q. apply Qle_shift_div_l; [done|]. lra. }
    assert (Hq : (inject_Z (target_length - 1) * q == inject_Z (len - 1))%Q).
    { unfold q. field. lra. }
    apply np_round_bounds.
    + change (inject_Z 0) with 0%Q. nra.
    + rewrite <- Hq. nra.
  - apply Z.ltb_ge in E. assert (k = 0) as -> by lia.
    apply np_round_bounds; change (inject_Z 0) with 0%Q; lra.
Qed.

Lemma apply_speed_resamples (wav : audio) speed :
  Qeq_bool speed 1 = false -> Qeq_bool speed 0 = false ->
  0 <= int_of_float (inject_Z (Z.of_nat (length wav)) / speed)%Q ->
  (0 < int_of_float (inject_Z (Z.of_nat (length wav)) / speed)%Q ->
   wav <> []) ->
  _apply_speed_adjustment wav speed
  = inr (resample wav
           (int_of_float (inject_Z (Z.of_nat (length wav)) / speed)%Q)).
Proof.
  intros H1 H0 HT Hne. unfold _apply_speed_adjustment, resample.
  rewrite H1, H0.
  set (T := int_of_float (inject_Z (Z.of_nat (length wav)) / speed)%Q) in *.
  unfold np_linspace0. assert ((T <? 0) = false) as -> by lia.
  rewrite <- list_fmap_compose, np_take_in_range.
  - by rewrite <- list_fmap_compose.
  - apply Forall_fmap, Forall_forall. intros k Hk.
    apply elem_of_seqZ in Hk. cbn [compose].
    apply (resample_index_in_range (Z.of_nat (length wav)) T k); [|lia].
    destruct wav; [|cbn [length]; lia]. exfalso. apply Hne; [lia | done].
Qed.



(** ** The generation job *)

Lemma chunk_loop_run c start_time total_chunks ref_codes ref_text chunks :
  forall i chunk_results s,
    chunk_loop c start_time total_chunks ref_codes ref_text i chunks
               chunk_results s
    = (inr (chunk_results
            ++ kept c ref_codes ref_text i (infer_calls s) chunks),
       GState (trace s
               ++ loop_actions c start_time total_chunks ref_codes ref_text
                    i (ticks s) chunks)
              (ticks s + length chunks) (infer_calls s + length chunks)
              (temp_output s)).
Proof.
  induction chunks as [|chunk rest IH]; intros i chunk_results s.
  - destruct s as [tr tk ic out]. cbn.
    by rewrite !app_nil_r, !Nat.add_0_r.
  - cbn [chunk_loop loop_actions kept length].
    unfold bind at 1. unfold py_time at 1.
    unfold bind at 1. unfold yield, log at 1.
    unfold bind at 1. rewrite process_chunk_run.
    cbn [trace ticks infer_calls temp_output].
    rewrite IH. cbn [trace ticks infer_calls temp_output].
    rewrite <- ?app_assoc. cbn [app].
    rewrite !Nat.add_succ_r. cbn [Nat.add].
    destruct (infer c (infer_calls s) chunk ref_codes ref_text) as [e|wav];
      [done|]. by rewrite <- ?app_assoc.
Qed.

Lemma run_job_after_loop c vm text voice speed out ref_text ref_codes :
  blank text = false -> Str.truthy voice = true ->
  voice_exists vm voice = true ->
  reference_of c vm voice = inr (ref_text, ref_codes) ->
  split_text_into_chunks c text <> [] ->
  run_job c vm text (Some voice) speed out
  = try_except
      (finish c (time_time c 0) speed
              (kept c ref_codes ref_text 1 0 (split_text_into_chunks c text)))
      on_error
      (GState (job_prefix c vm text voice ref_text ref_codes)
              (S (length (split_text_into_chunks c text)))
              (length (split_text_into_chunks c text)) out).
Proof.
  intros Ht Hv Hex Href Hne.
  unfold run_job, generate_speech, job_prefix, not_provided.
  rewrite Ht, Hv. cbn [negb default from_option id]. rewrite Hex.
  cbn [negb].
  unfold try_except at 1. unfold try_except at 1.
  unfold bind at 1. unfold py_time at 1.
  unfold bind at 1. unfold yield at 1, log at 1.
  unfold bind at 1. rewrite load_reference_run, Href.
  cbn [fresh trace ticks infer_calls temp_output fst snd app].
  destruct (split_text_into_chunks c text) as [|chunk rest] eqn:Hs; [done|].
  assert ((Z.of_nat (length (chunk :: rest)) =? 0) = false) as ->
    by (apply Z.eqb_neq; cbn [length]; lia).
  unfold bind at 1. unfold yield at 1, log at 1.
  unfold bind at 1. rewrite chunk_loop_run.
  cbn [fresh trace ticks infer_calls temp_output fst snd app Nat.add].
  rewrite <- ?app_assoc. cbn [app]. reflexivity.
Qed.

Lemma chunk_progress_floor total_chunks i :
  0 < total_chunks -> 0 <= i ->
  chunk_progress total_chunks i = 15 + 75 * i / total_chunks.
Proof.
  intros Ht Hi. destruct total_chunks as [|p|p]; try lia.
  unfold chunk_progress, int_of_float, Qplus, Qdiv, Qmult, Qinv, inject_Z.
  cbn [Qnum Qden]. rewrite !Pos.mul_1_l, !Z.mul_1_r.
  rewrite Z.quot_div_nonneg by lia.
  rewrite Z.div_add_l by lia. reflexivity.
Qed.

Lemma chunk_progress_mono total_chunks i j :
  0 < total_chunks -> 0 <= i <= j ->
  chunk_progress total_chunks i <= chunk_progress total_chunks j.
Proof.
  intros Ht Hij. rewrite !chunk_progress_floor by lia.
  apply Z.add_le_mono_l, Z.div_le_mono; lia.
Qed.

Lemma chunk_progress_range total_chunks i :
  0 < total_chunks -> 0 <= i <= total_chunks ->
  15 <= chunk_progress total_chunks i <= 90.
Proof.
  intros Ht Hi. rewrite chunk_progress_floor by lia.
  assert (0 <= 75 * i / total_chunks) by (apply Z.div_pos; lia).
  assert (75 * i / total_chunks <= 75).
  { apply Z.div_le_upper_bound; lia. }
  lia.
Qed.

Lemma yielded_app tr1 tr2 : yielded (tr1 ++ tr2) = yielded tr1 ++ yielded tr2.
Proof. apply omap_app. Qed.

(** The events of the loop are those of the chunks, in order. *)
Lemma yielded_loop_lookup c start_time total_chunks ref_codes ref_text chunks :
  forall i tick k,
    (k < length chunks)%nat ->
    yielded (loop_actions c start_time total_chunks ref_codes ref_text
               i tick chunks) !! k
    = Some (chunk_event c start_time total_chunks (i + Z.of_nat k)
                        (tick + k)).
Proof.
  induction chunks as [|chunk rest IH]; intros i tick k Hk;
    cbn [length] in Hk; [lia|].
  cbn [loop_actions]. change (yielded (?a :: ?b :: ?l))
    with (chunk_event c start_time total_chunks i tick :: yielded l).
  destruct k as [|k].
  - cbn. by rewrite Z.add_0_r, Nat.add_0_r.
  - cbn [lookup list_lookup]. rewrite IH by lia.
    do 2 f_equal; lia.
Qed.

Lemma yielded_loop_length c start_time total_chunks ref_codes ref_text chunks :
  forall i tick,
    length (yielded (loop_actions c start_time total_chunks ref_codes
                       ref_text i tick chunks)) = length chunks.
Proof.
  induction chunks as [|chunk rest IH]; intros i tick; [done|].
  cbn [loop_actions]. change (yielded (?a :: ?b :: ?l))
    with (chunk_event c start_time total_chunks i tick :: yielded l).
  cbn [length]. by rewrite IH.
Qed.

Lemma chunk_event_intermediate c start_time total_chunks i tick :
  0 < total_chunks -> 0 <= i <= total_chunks ->
  intermediate (chunk_event c start_time total_chunks i tick).
Proof.
  intros Ht Hi. unfold intermediate, chunk_event. cbn [status progress audio_path].
  pose proof (chunk_progress_range total_chunks i Ht Hi).
  destruct (1 <? i); cbn; split_and!; try done; lia.
Qed.

(** The progress values of the loop never decrease and stay within
    15..90. *)
Lemma loop_progress_sorted c start_time total_chunks ref_codes ref_text chunks :
  forall i tick,
    0 < total_chunks -> 1 <= i ->
    i + Z.of_nat (length chunks) - 1 <= total_chunks ->
    StronglySorted Z.le
      (progress <$> yielded (loop_actions c start_time total_chunks ref_codes
                               ref_text i tick chunks))
    /\ Forall (fun e => intermediate e
                        /\ chunk_progress total_chunks i <= progress e)
         (yielded (loop_actions c start_time total_chunks ref_codes
                     ref_text i tick chunks)).
Proof.
  induction chunks as [|chunk rest IH]; intros i tick Ht Hi Hlen.
  - split; constructor.
  - cbn [loop_actions]. change (yielded (?a :: ?b :: ?l))
      with (chunk_event c start_time total_chunks i tick :: yielded l).
    cbn [length] in Hlen.
    destruct (IH (i + 1) (S tick)) as [IH1 IH2]; [lia..|].
    pose proof (chunk_progress_mono total_chunks i (i + 1) Ht) as Hm.
    split.
    + cbn [fmap list_fmap]. constructor; [exact IH1|].
      apply Forall_fmap. eapply Forall_impl; [exact IH2|].
      intros e [_ He]. cbn. cbn in He. lia.
    + constructor.
      * split; [apply chunk_event_intermediate; lia | done].
      * eapply Forall_impl; [exact IH2|]. intros e [? He]. split; [done|]. lia.
Qed.

(** ** Aggregation *)

Lemma kept_lower_bound c ref_codes ref_text chunks :
  forall i call,
    Forall (fun x => i - 1 <= fst x) (kept c ref_codes ref_text i call chunks).
Proof.
  induction chunks as [|chunk rest IH]; intros i call; [constructor|].
  cbn [kept]. specialize (IH (i + 1) (S call)).
  assert (Forall (fun x : Z * audio => i - 1 <= fst x)
            (kept c ref_codes ref_text (i + 1) (S call) rest)).
  { eapply Forall_impl; [exact IH|]. intros x Hx. cbn in Hx. lia. }
  destruct (infer c call chunk ref_codes ref_text); [done|].
  constructor; [cbn; lia | done].
Qed.

(** The loop collects its results in increasing index order. *)
Lemma kept_sorted c ref_codes ref_text chunks :
  forall i call,
    StronglySorted (fun x y : Z * audio => fst x <= fst y)
                   (kept c ref_codes ref_text i call chunks).
Proof.
  induction chunks as [|chunk rest IH]; intros i call; [constructor|].
  cbn [kept]. destruct (infer c call chunk ref_codes ref_text); [apply IH|].
  constructor; [apply IH|].
  eapply Forall_impl; [apply kept_lower_bound|]. intros x Hx. cbn in *. lia.
Qed.

(** Sorting a list that is in index order changes nothing. *)
Lemma sort_by_index_sorted l :
  StronglySorted (fun x y : Z * audio => fst x <= fst y) l ->
  sort_by_index l = l.
Proof.
  induction 1 as [|x l Hl IH Hx]; [done|].
  cbn [sort_by_index fold_right]. fold (sort_by_index l). rewrite IH.
  destruct Hx as [|y l' Hy _]; [done|].
  cbn [insert_by_index]. by rewrite (proj2 (Z.leb_le _ _) Hy).
Qed.

Lemma joined_app_head gap a b rest :
  joined gap ((a ++ b) :: rest) = a ++ joined gap (b :: rest).
Proof. destruct rest; cbn [joined]; [done|]. by rewrite <- ?app_assoc. Qed.

Lemma fold_left_joined gap rest :
  forall first,
    fold_left (fun all_wav chunk_wav : audio => all_wav ++ gap ++ chunk_wav)
              rest first
    = joined gap (first :: rest).
Proof.
  induction rest as [|w rest IH]; intros first; [done|].
  cbn [fold_left]. rewrite IH, joined_app_head, joined_app_head.
  reflexivity.
Qed.

Lemma concatenate_chunks_joined wavs :
  wavs <> [] -> concatenate_chunks wavs = inr (joined silence wavs).
Proof.
  destruct wavs as [|first rest]; [done|]. intros _.
  unfold concatenate_chunks. by rewrite fold_left_joined.
Qed.

(** The waveform a job writes when it gets that far: the results in index
    order, joined with silence, then adjusted for speed. *)
Lemma finish_run c start_time speed chunk_results s :
  chunk_results <> [] ->
  StronglySorted (fun x y : Z * audio => fst x <= fst y) chunk_results ->
  try_except (finish c start_time speed chunk_results) on_error s
  = match (if negb (Qeq_bool speed 1)
           then _apply_speed_adjustment
                  (joined silence (chunk_results.*2)) speed
           else inr (joined silence (chunk_results.*2))) with
    | inl e =>
        (inr tt,
         GState (trace s ++ [Yield (Event 90 None StFinalizing None);
                             Yield (Event 0 None
                                      (StErrorGenerating (exn_str e)) None)])
                (ticks s) (infer_calls s) (temp_output s))
    | inr all_wav =>
        match sf_write c all_wav with
        | Some e =>
            (inr tt,
             GState (trace s ++ [Yield (Event 90 None StFinalizing None);
                                 CallSfWrite all_wav;
                                 Yield (Event 0 None
                                          (StErrorGenerating (exn_str e))
                                          None)])
                    (ticks s) (infer_calls s) (temp_output s))
        | None =>
            (inr tt,
             GState (trace s ++ [Yield (Event 90 None StFinalizing None);
                                 CallSfWrite all_wav;
                                 Yield (Event 100 (Some TEMP_OUTPUT_PATH)
                                          (StComplete
                                             (format_time
                                                (time_time c (ticks s)
                                                 - start_time)%Q)) None)])
                    (S (ticks s)) (infer_calls s) (Some all_wav))
        end
    end.
Proof.
  intros Hne Hs. unfold finish.
  destruct chunk_results as [|r rs] eqn:Hr; [done|]. rewrite <- Hr in *.
  rewrite sort_by_index_sorted by exact Hs.
  rewrite concatenate_chunks_joined by (rewrite Hr; done).
  change (map snd chunk_results) with (chunk_results.*2).
  set (w := joined silence (chunk_results.*2)).
  unfold on_error.
  unfold try_except, bind, yield, log, lift, sf_write_output, py_time, ret.
  cbn [trace ticks infer_calls temp_output].
  destruct (negb (Qeq_bool speed 1)).
  - destruct (_apply_speed_adjustment w speed) as [e|all_wav].
    + cbn [trace ticks infer_calls temp_output]. by rewrite <- ?app_assoc.
    + destruct (sf_write c all_wav) as [e|];
        cbn [trace ticks infer_calls temp_output];
        by rewrite <- ?app_assoc.
  - destruct (sf_write c w) as [e|];
      cbn [trace ticks infer_calls temp_output];
      by rewrite <- ?app_assoc.
Qed.

Lemma finish_empty c start_time speed s :
  try_except (finish c start_time speed []) on_error s
  = (inr tt,
     GState (trace s
             ++ [Yield (Event 0 None
                          (StErrorGenerating "Failed to generate any audio")
                          None)])
            (ticks s) (infer_calls s) (temp_output s)).
Proof. reflexivity. Qed.

(** ** The event stream *)

Lemma yielded_reference_actions c vm voice :
  yielded (reference_actions c vm voice) = [].
Proof.
  unfold reference_actions, load_reference.
  destruct (Dict.get (voices vm) voice) as [[txt_path audio_or_pt]|]; [|done].
  unfold bind at 1, lift at 1.
  destruct (read_text (samples_dir vm) txt_path) as [e|t]; [done|].
  destruct (Str.endswith audio_or_pt ".pt");
    unfold torch_load, tts_encode_reference, bind, log, lift, ret, raise, fresh;
    cbn [trace ticks infer_calls temp_output app];
    destruct (samples_dir vm !! audio_or_pt) as [[t'|a'|cd']|]; try done;
    by destruct (encode_reference c _).
Qed.

Lemma yielded_job_prefix c vm text voice ref_text ref_codes :
  yielded (job_prefix c vm text voice ref_text ref_codes)
  = [Event 10 None StLoadingReference None;
     Event 15 None
       (StEstimate
          (format_time
             (inject_Z (estimate_generation_time
                          (Z.of_nat (length (split_text_into_chunks c text))))))
          (Z.of_nat (length (split_text_into_chunks c text)))) None]
    ++ yielded (loop_actions c (time_time c 0)
                  (Z.of_nat (length (split_text_into_chunks c text)))
                  ref_codes ref_text 1 1 (split_text_into_chunks c text)).
Proof.
  unfold job_prefix. rewrite !yielded_app, yielded_reference_actions.
  reflexivity.
Qed.

(** The events before the terminal one of a job that reaches the loop:
    10, 15, the chunk events, and 90 once the results are aggregated. *)
Lemma progress_before_terminal c start_time ref_codes ref_text chunks e15 tl :
  chunks <> [] ->
  progress e15 = 15 -> intermediate e15 ->
  tl = [] \/ tl = [Event 90 None StFinalizing None] ->
  Sorted Z.le
    (progress <$>
       ([Event 10 None StLoadingReference None; e15]
        ++ yielded (loop_actions c start_time (Z.of_nat (length chunks))
                      ref_codes ref_text 1 1 chunks)) ++ tl)
  /\ Forall intermediate
       (([Event 10 None StLoadingReference None; e15]
         ++ yielded (loop_actions c start_time (Z.of_nat (length chunks))
                       ref_codes ref_text 1 1 chunks)) ++ tl).
Proof.
  intros Hne H15 Hi15 Htl.
  assert (Hpos : 0 < Z.of_nat (length chunks))
    by (destruct chunks; [done | cbn [length]; lia]).
  destruct (loop_progress_sorted c start_time (Z.of_nat (length chunks))
              ref_codes ref_text chunks 1 1%nat) as [Hs Hf]; [lia..|].
  set (L := yielded (loop_actions c start_time (Z.of_nat (length chunks))
                       ref_codes ref_text 1 1 chunks)) in *.
  assert (Hr : Forall (fun e => 15 <= progress e <= 90) L).
  { eapply Forall_impl; [exact Hf|]. intros e [(_ & _ & _ & Hp) Hq].
    pose proof (chunk_progress_range (Z.of_nat (length chunks)) 1 Hpos).
    lia. }
  assert (Htl' : StronglySorted Z.le (progress <$> tl)
                 /\ Forall intermediate tl
                 /\ Forall (fun e => 90 <= progress e) tl).
  { destruct Htl as [-> | ->].
    - split_and!; constructor.
    - unfold intermediate. split_and!; repeat constructor; cbn [progress]; lia. }
  destruct Htl' as (Ht1 & Ht2 & Ht3).
  split.
  - apply StronglySorted_Sorted.
    rewrite fmap_app. apply StronglySorted_app_2.
    + intros x1 x2 Hx1 Hx2.
      apply list_elem_of_fmap in Hx1 as (e1 & -> & He1).
      apply list_elem_of_fmap in Hx2 as (e2 & -> & He2).
      rewrite Forall_forall in Ht3. specialize (Ht3 _ He2). cbv beta in Ht3.
      apply elem_of_app in He1 as [He1|He1].
      * apply elem_of_cons in He1 as [->|He1]; [cbn [progress]; lia|].
        apply list_elem_of_singleton in He1 as ->. lia.
      * rewrite Forall_forall in Hr. specialize (Hr _ He1). cbv beta in Hr. lia.
    + cbn [app fmap list_fmap progress]. rewrite H15.
      assert (Hr' : Forall (Z.le 15) (progress <$> L)).
      { apply Forall_fmap. eapply Forall_impl; [exact Hr|].
        intros e He. unfold compose. cbv beta in He. lia. }
      constructor; [constructor; [exact Hs | exact Hr']|].
      constructor; [lia|].
      eapply Forall_impl; [exact Hr'|]. intros p Hp. cbv beta in Hp. lia.
    + exact Ht1.
  - apply Forall_app. split; [|exact Ht2].
    cbn [app]. constructor; [|constructor; [exact Hi15|]].
    + unfold intermediate. cbn [progress status audio_path]. split_and!; try done; lia.
    + eapply Forall_impl; [exact Hf|]. by intros e [He _].
Qed.

Lemma run_job_reference_fails c vm text voice speed out e :
  blank text = false -> Str.truthy voice = true ->
  voice_exists vm voice = true ->
  reference_of c vm voice = inl e ->
  run_job c vm text (Some voice) speed out
  = (inr tt,
     GState ([Yield (Event 10 None StLoadingReference None)]
             ++ reference_actions c vm voice
             ++ [Yield (Event 0 None (StErrorGenerating (exn_str e)) None)])
            1 0 out).
Proof.
  intros Ht Hv Hex Href.
  unfold run_job, generate_speech, not_provided.
  rewrite Ht, Hv. cbn [negb default from_option id]. rewrite Hex.
  cbn [negb].
  unfold try_except at 1.
  unfold bind at 1. unfold py_time at 1.
  unfold bind at 1. unfold yield at 1, log at 1.
  unfold bind at 1. rewrite load_reference_run, Href.
  unfold yield, log.
  cbn [fresh trace ticks infer_calls temp_output fst snd app].
  by rewrite <- ?app_assoc.
Qed.

Lemma run_job_no_chunks c vm text voice speed out ref :
  blank text = false -> Str.truthy voice = true ->
  voice_exists vm voice = true ->
  reference_of c vm voice = inr ref ->
  split_text_into_chunks c text = [] ->
  run_job c vm text (Some voice) speed out
  = (inr tt,
     GState ([Yield (Event 10 None StLoadingReference None)]
             ++ reference_actions c vm voice
             ++ [Yield (Event 0 None (StErrorGenerating "No text to process")
                          None)])
            1 0 out).
Proof.
  intros Ht Hv Hex Href Hs.
  unfold run_job, generate_speech, not_provided.
  rewrite Ht, Hv. cbn [negb default from_option id]. rewrite Hex.
  cbn [negb].
  unfold try_except at 1.
  unfold bind at 1. unfold py_time at 1.
  unfold bind at 1. unfold yield at 1, log at 1.
  unfold bind at 1. rewrite load_reference_run, Href, Hs.
  unfold yield, log.
  cbn [fresh trace ticks infer_calls temp_output fst snd app].
  by rewrite <- ?app_assoc.
Qed.

(** C3: every job runs to the end without raising and yields a finite,
    non-empty sequence of events; all events but the last report progress
    between 10 and 90 that never decreases, and the last one is terminal:
    progress 100 with the output path on success, progress 0 with no path
    on error. *)
Theorem generate_speech_event_stream c vm text voice_name speed out :
  exists s' init last,
    run_job c vm text voice_name speed out = (inr tt, s')
    /\ yielded (trace s') = init ++ [last]
    /\ Sorted Z.le (progress <$> init)
    /\ Forall intermediate init
    /\ terminal last.
Proof.
  destruct (blank text) eqn:Ht.
  { eexists (GState [Yield (Event 0 None StEmptyText None)] 0 0 out), [], _.
    unfold run_job, generate_speech. rewrite Ht.
    split_and!; [reflexivity | reflexivity | constructor | constructor |].
    right. done. }
  destruct (not_provided voice_name) eqn:Hv.
  { eexists (GState [Yield (Event 0 None StNoVoice None)] 0 0 out), [], _.
    unfold run_job, generate_speech. rewrite Ht, Hv.
    split_and!; [reflexivity | reflexivity | constructor | constructor |].
    right. done. }
  destruct voice_name as [voice|]; [|done].
  cbn [not_provided] in Hv. apply negb_false_iff in Hv.
  destruct (voice_exists vm voice) eqn:Hex; cycle 1.
  { eexists (GState [Yield (Event 0 None (StVoiceNotFound voice) None)]
                    0 0 out), [], _.
    unfold run_job, generate_speech, not_provided.
    rewrite Ht, Hv. cbn [negb default from_option id]. rewrite Hex.
    split_and!; [reflexivity | reflexivity | constructor | constructor |].
    right. done. }
  destruct (reference_of c vm voice) as [e|ref] eqn:Href.
  { rewrite (run_job_reference_fails c vm text voice speed out e) by done.
    eexists _, [Event 10 None StLoadingReference None], _.
    split; [reflexivity|]. cbn [trace].
    rewrite !yielded_app, yielded_reference_actions.
    split_and!; [reflexivity | repeat constructor | |].
    - repeat constructor; cbn [progress]; lia.
    - right. done. }
  destruct (split_text_into_chunks c text) as [|chunk rest] eqn:Hs.
  { rewrite (run_job_no_chunks c vm text voice speed out ref) by done.
    eexists _, [Event 10 None StLoadingReference None], _.
    split; [reflexivity|]. cbn [trace].
    rewrite !yielded_app, yielded_reference_actions.
    split_and!; [reflexivity | repeat constructor | |].
    - repeat constructor; cbn [progress]; lia.
    - right. done. }
  destruct ref as [ref_text ref_codes].
  rewrite (run_job_after_loop c vm text voice speed out ref_text ref_codes)
    by (try done; by rewrite Hs).
  set (chunks := split_text_into_chunks c text) in *.
  assert (Hne : chunks <> []) by (by rewrite Hs).
  set (e15 := Event 15 None
                (StEstimate
                   (format_time
                      (inject_Z (estimate_generation_time
                                   (Z.of_nat (length chunks)))))
                   (Z.of_nat (length chunks))) None).
  assert (Hi15 : intermediate e15)
    by (unfold intermediate; cbn [progress status audio_path];
        split_and!; try done; lia).
  pose proof (yielded_job_prefix c vm text voice ref_text ref_codes) as Hpre.
  fold chunks in Hpre. fold e15 in Hpre.
  destruct (kept c ref_codes ref_text 1 0 chunks) as [|r rs] eqn:Hk.
  { rewrite finish_empty. cbn [trace ticks infer_calls temp_output].
    eexists _, _, _. split; [reflexivity|]. cbn [trace].
    rewrite yielded_app, Hpre.
    destruct (progress_before_terminal c (time_time c 0) ref_codes ref_text
                chunks e15 []) as [H1 H2]; try done; [by left|].
    rewrite app_nil_r in H1, H2.
    split_and!; [reflexivity | exact H1 | exact H2 |]. right. done. }
  rewrite finish_run; cycle 1.
  { done. }
  { rewrite <- Hk. apply kept_sorted. }
  cbn [trace ticks infer_calls temp_output].
  destruct (progress_before_terminal c (time_time c 0) ref_codes ref_text
              chunks e15 [Event 90 None StFinalizing None])
    as [H1 H2]; try done; [by right|].
  destruct (if negb (Qeq_bool speed 1) then _ else _) as [e|all_wav].
  { eexists _, _, _. split; [reflexivity|]. cbn [trace].
    rewrite yielded_app, Hpre.
    change (yielded [Yield ?a; Yield ?b]) with ([a] ++ [b]).
    rewrite app_assoc.
    split_and!; [reflexivity | exact H1 | exact H2 |]. right. done. }
  destruct (sf_write c all_wav) as [e|].
  { eexists _, _, _. split; [reflexivity|]. cbn [trace].
    rewrite yielded_app, Hpre.
    change (yielded [Yield ?a; CallSfWrite ?w; Yield ?b]) with ([a] ++ [b]).
    rewrite app_assoc.
    split_and!; [reflexivity | exact H1 | exact H2 |]. right. done. }
  eexists _, _, _. split; [reflexivity|]. cbn [trace].
  rewrite yielded_app, Hpre.
  change (yielded [Yield ?a; CallSfWrite ?w; Yield ?b]) with ([a] ++ [b]).
  rewrite app_assoc.
  split_and!; [reflexivity | exact H1 | exact H2 |]. left. done.
Qed.

(** ** Total failure *)

Lemma kept_all_fail c ref_codes ref_text chunks :
  forall i call,
    (forall k chunk, chunks !! k = Some chunk ->
                     exists e, infer c (call + k) chunk ref_codes ref_text
                               = inl e) ->
    kept c ref_codes ref_text i call chunks = [].
Proof.
  induction chunks as [|chunk rest IH]; intros i call H; [done|].
  cbn [kept]. destruct (H 0%nat chunk eq_refl) as [e He].
  rewrite Nat.add_0_r in He. rewrite He. apply IH.
  intros k chunk' Hk. specialize (H (S k) chunk' Hk).
  by rewrite Nat.add_succ_r in H.
Qed.

Lemma reference_actions_cases c vm voice :
  reference_actions c vm voice = []
  \/ exists path, reference_actions c vm voice = [CallTorchLoad path]
                  \/ reference_actions c vm voice = [CallEncodeReference path].
Proof.
  unfold reference_actions, load_reference.
  destruct (Dict.get (voices vm) voice) as [[txt_path audio_or_pt]|];
    [|by left].
  unfold bind at 1, lift at 1.
  destruct (read_text (samples_dir vm) txt_path) as [e|t]; [by left|].
  right. exists audio_or_pt.
  destruct (Str.endswith audio_or_pt ".pt");
    unfold torch_load, tts_encode_reference, bind, log, lift, ret, raise, fresh;
    cbn [trace ticks infer_calls temp_output app];
    destruct (samples_dir vm !! audio_or_pt) as [[t'|a'|cd']|];
    try (by left); try (by right);
    destruct (encode_reference c _); by right.
Qed.

Lemma loop_actions_no_write c start_time total_chunks ref_codes ref_text chunks :
  forall i tick,
    Forall (fun a => is_write a = false)
           (loop_actions c start_time total_chunks ref_codes ref_text
              i tick chunks).
Proof.
  induction chunks as [|chunk rest IH]; intros i tick; [constructor|].
  cbn [loop_actions]. repeat constructor. apply IH.
Qed.

Lemma job_prefix_no_write c vm text voice ref_text ref_codes :
  Forall (fun a => is_write a = false)
         (job_prefix c vm text voice ref_text ref_codes).
Proof.
  unfold job_prefix. rewrite !Forall_app. split_and!.
  - by repeat constructor.
  - destruct (reference_actions_cases c vm voice) as [-> | [p [-> | ->]]];
      by repeat constructor.
  - by repeat constructor.
  - apply loop_actions_no_write.
Qed.

(** C5: when [infer] raises on every chunk of a job with at least one
    chunk, the job ends with one terminal error event, of progress 0 and
    message "Failed to generate any audio"; the events before it are
    progress reports, [sf.write] is never called and the output file is
    as it was. *)
Theorem all_chunks_fail c vm text voice speed out ref_text ref_codes :
  blank text = false -> Str.truthy voice = true ->
  voice_exists vm voice = true ->
  reference_of c vm voice = inr (ref_text, ref_codes) ->
  split_text_into_chunks c text <> [] ->
  (forall k chunk,
      split_text_into_chunks c text !! k = Some chunk ->
      exists e, infer c k chunk ref_codes ref_text = inl e) ->
  exists s' init,
    run_job c vm text (Some voice) speed out = (inr tt, s')
    /\ yielded (trace s')
       = init ++ [Event 0 None
                    (StErrorGenerating "Failed to generate any audio") None]
    /\ Forall intermediate init
    /\ Forall (fun a => is_write a = false) (trace s')
    /\ temp_output s' = out.
Proof.
  intros Ht Hv Hex Href Hne Hfail.
  rewrite (run_job_after_loop c vm text voice speed out ref_text ref_codes)
    by done.
  rewrite kept_all_fail by exact Hfail. rewrite finish_empty.
  cbn [trace ticks infer_calls temp_output].
  eexists _, _. split; [reflexivity|]. cbn [trace temp_output].
  rewrite yielded_app, yielded_job_prefix.
  set (chunks := split_text_into_chunks c text) in *.
  set (e15 := Event 15 None _ None).
  assert (Hi15 : intermediate e15)
    by (unfold intermediate, e15; cbn [progress status audio_path];
        split_and!; try done; lia).
  destruct (progress_before_terminal c (time_time c 0) ref_codes ref_text
              chunks e15 []) as [_ H2]; [done | done | exact Hi15 | by left |].
  rewrite app_nil_r in H2.
  split_and!; [reflexivity | exact H2 | | reflexivity].
  apply Forall_app. split; [apply job_prefix_no_write | by repeat constructor].
Qed.

Lemma all_chunks_fail_witness :
  exists s' init,
    run_job always_fails registry_x "say it" (Some "x") 1 None = (inr tt, s')
    /\ yielded (trace s')
       = init ++ [Event 0 None
                    (StErrorGenerating "Failed to generate any audio") None]
    /\ Forall intermediate init
    /\ Forall (fun a => is_write a = false) (trace s')
    /\ temp_output s' = None.
Proof.
  apply (all_chunks_fail always_fails registry_x "say it" "x" 1 None
           "hello" [3; 1; 4]).
  - by vm_compute.
  - by vm_compute.
  - by vm_compute.
  - by vm_compute.
  - intros H. discriminate H.
  - intros k chunk _. by exists (CollaboratorError "boom").
Defined.

(** ** Partial failure *)

Lemma kept_one_fails c ref_codes ref_text (k : nat) (wav_of : nat -> audio)
    chunks :
  forall i call,
    i - 1 = Z.of_nat call ->
    (forall j chunk, chunks !! j = Some chunk -> (call + j)%nat = k ->
                     exists e, infer c (call + j) chunk ref_codes ref_text
                               = inl e) ->
    (forall j chunk, chunks !! j = Some chunk -> (call + j)%nat <> k ->
                     infer c (call + j) chunk ref_codes ref_text
                     = inr (wav_of (call + j)%nat)) ->
    kept c ref_codes ref_text i call chunks
    = (fun j => (Z.of_nat j, wav_of j))
        <$> filter (fun j => j <> k) (seq call (length chunks)).
Proof.
  induction chunks as [|chunk rest IH]; intros i call Hi Hbad Hgood; [done|].
  cbn [kept length seq].
  assert (IH' : kept c ref_codes ref_text (i + 1) (S call) rest
                = (fun j => (Z.of_nat j, wav_of j))
                    <$> filter (fun j => j <> k) (seq (S call) (length rest))).
  { apply IH; [lia | |].
    - intros j chunk' Hj Hk. rewrite Nat.add_succ_l, <- Nat.add_succ_r.
      apply Hbad; [done | lia].
    - intros j chunk' Hj Hk. rewrite Nat.add_succ_l, <- Nat.add_succ_r.
      apply Hgood; [done | lia]. }
  rewrite IH'. destruct (decide (call = k)) as [E|E].
  - destruct (Hbad 0%nat chunk eq_refl) as [e He]; [lia|].
    rewrite Nat.add_0_r in He. rewrite He.
    rewrite filter_cons_False by (intros H; by apply H). done.
  - pose proof (Hgood 0%nat chunk eq_refl) as Hg.
    rewrite Nat.add_0_r in Hg. rewrite Hg by done.
    rewrite filter_cons_True by done. cbn [fmap list_fmap].
    by rewrite Hi.
Qed.

Lemma survivors_nonempty (k n : nat) :
  (2 <= n)%nat -> filter (fun j => j <> k) (seq 0 n) <> [].
Proof.
  intros Hn. destruct n as [|[|n]]; [lia..|]. cbn [seq].
  destruct (decide (0%nat = k)) as [E|E].
  - rewrite filter_cons_False by (intros H; by apply H).
    rewrite filter_cons_True by lia. done.
  - by rewrite filter_cons_True.
Qed.

(** C1, as amended: in a job over N >= 2 chunks where [infer] raises on
    exactly one chunk, the failed chunk is left out and the waveform
    assembled is the audio of the other chunks in their original index
    order with one silence between neighbours; when the speed adjustment
    and [sf.write] succeed the job ends with the terminal success event,
    and the waveform written is the assembled one at speed 1.0 and its
    speed adjustment otherwise. *)
Theorem one_chunk_fails c vm text voice speed out ref_text ref_codes
    (k : nat) (wav_of : nat -> audio) out_wav :
  blank text = false -> Str.truthy voice = true ->
  voice_exists vm voice = true ->
  reference_of c vm voice = inr (ref_text, ref_codes) ->
  (2 <= length (split_text_into_chunks c text))%nat ->
  (k < length (split_text_into_chunks c text))%nat ->
  (forall chunk,
      split_text_into_chunks c text !! k = Some chunk ->
      exists e, infer c k chunk ref_codes ref_text = inl e) ->
  (forall j chunk,
      split_text_into_chunks c text !! j = Some chunk -> j <> k ->
      infer c j chunk ref_codes ref_text = inr (wav_of j)) ->
  (if negb (Qeq_bool speed 1)
   then _apply_speed_adjustment
          (assembled wav_of k (length (split_text_into_chunks c text))) speed
   else inr (assembled wav_of k (length (split_text_into_chunks c text))))
  = inr out_wav ->
  sf_write c out_wav = None ->
  exists s' init t,
    run_job c vm text (Some voice) speed out = (inr tt, s')
    /\ yielded (trace s')
       = init ++ [Event 100 (Some TEMP_OUTPUT_PATH) (StComplete t) None]
    /\ Forall intermediate init
    /\ temp_output s' = Some out_wav
    /\ (Qeq_bool speed 1 = true ->
        out_wav = assembled wav_of k (length (split_text_into_chunks c text))).
Proof.
  intros Ht Hv Hex Href Hn Hk Hbad Hgood Hadj Hw.
  set (chunks := split_text_into_chunks c text) in *.
  assert (Hne : chunks <> []) by (destruct chunks; [cbn in Hn; lia | done]).
  rewrite (run_job_after_loop c vm text voice speed out ref_text ref_codes)
    by done.
  fold chunks.
  pose proof (kept_sorted c ref_codes ref_text chunks 1 0) as Hsorted.
  assert (Hkept : kept c ref_codes ref_text 1 0 chunks
                  = (fun j => (Z.of_nat j, wav_of j))
                      <$> survivors k (length chunks)).
  { apply kept_one_fails; [done | |].
    - intros j chunk Hj Hjk. cbn [Nat.add] in *. subst j. by apply Hbad.
    - intros j chunk Hj Hjk. cbn [Nat.add] in *. by apply Hgood. }
  rewrite Hkept in *.
  assert (Hsnd : ((fun j => (Z.of_nat j, wav_of j))
                    <$> survivors k (length chunks)).*2
                 = wav_of <$> survivors k (length chunks)).
  { rewrite <- list_fmap_compose. reflexivity. }
  rewrite finish_run; [| | exact Hsorted].
  2:{ intros E. apply fmap_nil_inv in E.
      by apply (survivors_nonempty k (length chunks)). }
  rewrite Hsnd. fold (assembled wav_of k (length chunks)).
  rewrite Hadj, Hw. cbn [trace ticks infer_calls temp_output].
  eexists _, _, _. split; [reflexivity|]. cbn [trace temp_output].
  rewrite yielded_app, yielded_job_prefix. fold chunks.
  change (yielded [Yield ?a; CallSfWrite ?w; Yield ?b]) with ([a] ++ [b]).
  rewrite app_assoc.
  set (e15 := Event 15 None _ None).
  assert (Hi15 : intermediate e15)
    by (unfold intermediate, e15; cbn [progress status audio_path];
        split_and!; try done; lia).
  destruct (progress_before_terminal c (time_time c 0) ref_codes ref_text
              chunks e15 [Event 90 None StFinalizing None])
    as [_ H2]; [done | done | exact Hi15 | by right |].
  split_and!; [reflexivity | exact H2 | reflexivity |].
  intros H1. rewrite H1 in Hadj. cbn [negb] in Hadj. by inversion Hadj.
Qed.

(** Chunks 1, 2, 3 with chunk 2 failing: chunk 1, silence, chunk 3. *)
Lemma one_chunk_fails_witness :
  exists s' init t,
    run_job second_fails registry_x "say it" (Some "x") 1 None = (inr tt, s')
    /\ yielded (trace s')
       = init ++ [Event 100 (Some TEMP_OUTPUT_PATH) (StComplete t) None]
    /\ Forall intermediate init
    /\ temp_output s'
       = Some (assembled (fun j : nat => [Z.of_nat j # 1; 1 # 3]%Q) 1
                 (length (split_text_into_chunks second_fails "say it")))
    /\ (Qeq_bool 1 1 = true ->
        assembled (fun j : nat => [Z.of_nat j # 1; 1 # 3]%Q) 1
          (length (split_text_into_chunks second_fails "say it"))
        = assembled (fun j : nat => [Z.of_nat j # 1; 1 # 3]%Q) 1
            (length (split_text_into_chunks second_fails "say it"))).
Proof.
  apply (one_chunk_fails second_fails registry_x "say it" "x" 1 None
           "hello" [3; 1; 4] 1 (fun j : nat => [Z.of_nat j # 1; 1 # 3]%Q)).
  - by vm_compute.
  - by vm_compute.
  - by vm_compute.
  - by vm_compute.
  - cbn. lia.
  - cbn. lia.
  - intros chunk _. by exists (CollaboratorError "boom").
  - intros j chunk _ Hj. cbn [infer second_fails].
    destruct (Nat.eqb_spec j 1) as [E|E]; [by destruct Hj | done].
  - reflexivity.
  - reflexivity.
Defined.

(** C1, as stated: at speed 2.0 the job with chunk 2 of 3 failing ends in
    success, but the waveform it writes has 3002 samples and is not the
    concatenation of chunk 1, silence and chunk 3, which has 6004. *)
Lemma sped_up_output_is_not_the_concatenation :
  fst (run_job second_fails registry_x "say it" (Some "x") 2 None) = inr tt
  /\ progress <$> last (yielded (trace (snd (run_job second_fails registry_x
                                               "say it" (Some "x") 2 None))))
     = Some 100
  /\ Z.of_nat (length (assembled (fun j : nat => [Z.of_nat j # 1; 1 # 3]%Q)
                         1 3)) = 6004
  /\ (Z.of_nat ∘ length)
       <$> temp_output (snd (run_job second_fails registry_x "say it"
                               (Some "x") 2 None))
     = Some 3002
  /\ temp_output (snd (run_job second_fails registry_x "say it" (Some "x")
                         2 None))
     <> Some (assembled (fun j : nat => [Z.of_nat j # 1; 1 # 3]%Q) 1 3).
Proof.
  assert (H1 : Z.of_nat (length (assembled
                                   (fun j : nat => [Z.of_nat j # 1; 1 # 3]%Q)
                                   1 3)) = 6004)
    by (vm_compute; reflexivity).
  assert (H2 : (Z.of_nat ∘ length)
                 <$> temp_output (snd (run_job second_fails registry_x
                                         "say it" (Some "x") 2 None))
               = Some 3002)
    by (vm_compute; reflexivity).
  split_and!.
  - vm_compute; reflexivity.
  - vm_compute; reflexivity.
  - exact H1.
  - exact H2.
  - intros E. rewrite E in H2. cbn [fmap option_fmap option_map compose] in H2.
    rewrite H1 in H2. discriminate H2.
Qed.

(** ** Progress events of the chunks *)

Lemma infer_calls_before_app i tr rest n :
  infer_calls_before i tr = Some n ->
  infer_calls_before i (tr ++ rest) = Some n.
Proof.
  revert n. induction tr as [|a tr IH]; intros n H; [done|].
  destruct a as [[p ap st ds]|chunk rc rt|path|path|wav];
    cbn [app infer_calls_before] in *.
  - destruct st; try (by apply IH). destruct (i0 =? i); [done | by apply IH].
  - destruct (infer_calls_before i tr) as [m|]; [|done].
    by rewrite (IH m eq_refl).
  - by apply IH.
  - by apply IH.
  - by apply IH.
Qed.

Lemma infer_calls_before_loop c start_time total_chunks ref_codes ref_text
    chunks :
  forall j tick i,
    j <= i < j + Z.of_nat (length chunks) ->
    infer_calls_before i
      (loop_actions c start_time total_chunks ref_codes ref_text j tick chunks)
    = Some (Z.to_nat (i - j)).
Proof.
  induction chunks as [|chunk rest IH]; intros j tick i Hi;
    cbn [length] in Hi; [lia|].
  cbn [loop_actions].
  assert (Hhead : forall tr,
             infer_calls_before i
               (Yield (chunk_event c start_time total_chunks j tick) :: tr)
             = if j =? i then Some 0%nat else infer_calls_before i tr).
  { intros tr. unfold chunk_event. by destruct (1 <? j). }
  rewrite Hhead. destruct (Z.eqb_spec j i) as [->|Hne].
  - by rewrite Z.sub_diag.
  - cbn [infer_calls_before]. rewrite IH by lia.
    cbn [fmap option_fmap option_map]. f_equal. lia.
Qed.

Lemma infer_calls_before_prefix c vm text voice ref_text ref_codes i :
  1 <= i <= Z.of_nat (length (split_text_into_chunks c text)) ->
  infer_calls_before i (job_prefix c vm text voice ref_text ref_codes)
  = Some (Z.to_nat (i - 1)).
Proof.
  intros Hi. unfold job_prefix. cbn [app infer_calls_before].
  destruct (reference_actions_cases c vm voice) as [-> | [p [-> | ->]]];
    cbn [app infer_calls_before]; apply infer_calls_before_loop; lia.
Qed.

(** Whatever happens after the loop, the actions up to its end stand. *)
Lemma run_job_trace_prefix c vm text voice speed out ref_text ref_codes :
  blank text = false -> Str.truthy voice = true ->
  voice_exists vm voice = true ->
  reference_of c vm voice = inr (ref_text, ref_codes) ->
  split_text_into_chunks c text <> [] ->
  exists rest,
    trace (snd (run_job c vm text (Some voice) speed out))
    = job_prefix c vm text voice ref_text ref_codes ++ rest.
Proof.
  intros Ht Hv Hex Href Hne.
  rewrite (run_job_after_loop c vm text voice speed out ref_text ref_codes)
    by done.
  pose proof (kept_sorted c ref_codes ref_text
                (split_text_into_chunks c text) 1 0) as Hsorted.
  destruct (kept c ref_codes ref_text 1 0 (split_text_into_chunks c text))
    as [|r rs].
  - rewrite finish_empty. by eexists.
  - rewrite finish_run by done.
    destruct (if negb (Qeq_bool speed 1) then _ else _) as [e|all_wav];
      [by eexists|].
    destruct (sf_write c all_wav); by eexists.
Qed.

(** C6, as amended: the progress event for chunk [i] of [N] is yielded
    before that chunk is synthesised, when [i - 1] calls of [infer] have
    been made; its percentage is [15 + floor(75 * i / N)], and its status
    holds the remaining-time figure
    [(elapsed / (i - 1)) * (N - (i - 1))] for [i >= 2] and none for
    [i = 1]. *)
Theorem chunk_progress_event c vm text voice speed out ref_text ref_codes
    (i : nat) :
  blank text = false -> Str.truthy voice = true ->
  voice_exists vm voice = true ->
  reference_of c vm voice = inr (ref_text, ref_codes) ->
  (1 <= i <= length (split_text_into_chunks c text))%nat ->
  yielded (trace (snd (run_job c vm text (Some voice) speed out))) !! S i
  = Some (Event
            (15 + 75 * Z.of_nat i
                  / Z.of_nat (length (split_text_into_chunks c text)))
            None
            (StChunk (Z.of_nat i)
               (Z.of_nat (length (split_text_into_chunks c text)))
               (15 + 75 * Z.of_nat i
                     / Z.of_nat (length (split_text_into_chunks c text)))
               (if (i =? 1)%nat then None
                else Some (format_time
                             ((time_time c i - time_time c 0)
                              / inject_Z (Z.of_nat i - 1)
                              * inject_Z
                                  (Z.of_nat
                                     (length (split_text_into_chunks c text))
                                   - (Z.of_nat i - 1)))%Q)))
            None)
  /\ infer_calls_before (Z.of_nat i)
       (trace (snd (run_job c vm text (Some voice) speed out)))
     = Some (i - 1)%nat.
Proof.
  intros Ht Hv Hex Href Hi.
  set (chunks := split_text_into_chunks c text) in *.
  assert (Hne : chunks <> []) by (destruct chunks; [cbn in Hi; lia | done]).
  destruct (run_job_trace_prefix c vm text voice speed out ref_text ref_codes)
    as [rest Htr]; [done..|].
  rewrite Htr. split.
  - rewrite yielded_app, lookup_app_l; cycle 1.
    { rewrite yielded_job_prefix. cbn [app length].
      rewrite yielded_loop_length. fold chunks. lia. }
    rewrite yielded_job_prefix. fold chunks. cbn [app].
    destruct i as [|k]; [lia|]. cbn [lookup list_lookup].
    rewrite yielded_loop_lookup by lia.
    replace (1 + Z.of_nat k) with (Z.of_nat (S k)) by lia.
    cbn [Nat.add]. unfold chunk_event.
    rewrite chunk_progress_floor by lia.
    destruct k as [|k].
    + reflexivity.
    + assert ((1 <? Z.of_nat (S (S k))) = true) as ->
        by (apply Z.ltb_lt; lia).
      reflexivity.
  - rewrite (infer_calls_before_app _ _ _ (Z.to_nat (Z.of_nat i - 1))).
    + f_equal. lia.
    + apply infer_calls_before_prefix. fold chunks. lia.
Qed.

Lemma chunk_progress_event_witness :
  yielded (trace (snd (run_job demo_collab registry_x "say it" (Some "x")
                         1 None))) !! 3%nat
  = Some (Event
            (15 + 75 * Z.of_nat 2
                  / Z.of_nat (length (split_text_into_chunks demo_collab
                                        "say it")))
            None
            (StChunk (Z.of_nat 2)
               (Z.of_nat (length (split_text_into_chunks demo_collab "say it")))
               (15 + 75 * Z.of_nat 2
                     / Z.of_nat (length (split_text_into_chunks demo_collab
                                           "say it")))
               (if (2 =? 1)%nat then None
                else Some (format_time
                             ((time_time demo_collab 2 - time_time demo_collab 0)
                              / inject_Z (Z.of_nat 2 - 1)
                              * inject_Z
                                  (Z.of_nat
                                     (length (split_text_into_chunks
                                                demo_collab "say it"))
                                   - (Z.of_nat 2 - 1)))%Q)))
            None)
  /\ infer_calls_before (Z.of_nat 2)
       (trace (snd (run_job demo_collab registry_x "say it" (Some "x")
                      1 None)))
     = Some (2 - 1)%nat.
Proof.
  apply (chunk_progress_event demo_collab registry_x "say it" "x" 1 None
           "hello" [3; 1; 4] 2).
  - by vm_compute.
  - by vm_compute.
  - by vm_compute.
  - by vm_compute.
  - cbn. lia.
Defined.

(** C6, as stated: when the progress event for chunk 1 is yielded, no chunk
    has been synthesised yet; the event comes before its chunk, not after
    it. *)
Lemma chunk_event_precedes_synthesis :
  infer_calls_before 1
    (trace (snd (run_job demo_collab registry_x "say it" (Some "x") 1 None)))
  = Some 0%nat
  /\ infer_calls_before 1
       (trace (snd (run_job demo_collab registry_x "say it" (Some "x")
                      1 None)))
     <> Some 1%nat.
Proof.
  assert (H : infer_calls_before 1
                (trace (snd (run_job demo_collab registry_x "say it"
                               (Some "x") 1 None)))
              = Some 0%nat) by (vm_compute; reflexivity).
  split; [exact H|]. rewrite H. intros E. discriminate E.
Qed.

(** ** More on dictionaries *)

Lemma dict_mem_keys {V} (d : Dict.t V) k :
  Dict.mem d k = true <-> k ∈ Dict.keys d.
Proof.
  unfold Dict.mem, Dict.keys. induction d as [|[k' v'] d IH]; cbn.
  - split; [done | by intros ?%elem_of_nil].
  - case_bool_decide as E.
    + split; [intros _; subst; left | done].
    + rewrite IH. split; [by right|].
      intros [?|?]%elem_of_cons; [by subst | done].
Qed.

Lemma dict_keys_set {V} (d : Dict.t V) k v :
  Dict.keys (Dict.set d k v)
  = if Dict.mem d k then Dict.keys d else Dict.keys d ++ [k].
Proof.
  unfold Dict.mem, Dict.keys. induction d as [|[k' v'] d IH]; cbn; [done|].
  case_bool_decide as E; cbn.
  - by subst.
  - rewrite IH. by destruct (Dict.get d k).
Qed.

Lemma filter_ne_notin (k : string) (l : list string) :
  k ∉ l -> filter (fun k' => k' <> k) l = l.
Proof.
  induction l as [|x l IH]; [done|].
  intros [Hx Hl]%not_elem_of_cons.
  rewrite filter_cons_True by done. by rewrite IH.
Qed.

Lemma dict_keys_del {V} (d : Dict.t V) k :
  NoDup (Dict.keys d) ->
  Dict.keys (Dict.del d k) = filter (fun k' => k' <> k) (Dict.keys d).
Proof.
  unfold Dict.keys. induction d as [|[k' v'] d IH]; [done|].
  cbn [map fst Dict.del].
  intros [Hnotin Hnd]%NoDup_cons. case_bool_decide as E; cbn [map fst].
  - subst k'. rewrite filter_cons_False by (intros H; by apply H).
    by rewrite filter_ne_notin.
  - rewrite filter_cons_True by done. by rewrite IH.
Qed.

Lemma dict_get_del_ne {V} (d : Dict.t V) k k' :
  k <> k' -> Dict.get (Dict.del d k) k' = Dict.get d k'.
Proof.
  intros Hne. induction d as [|[k0 v0] d IH]; cbn; [done|].
  case_bool_decide as E; cbn.
  - subst k0. by rewrite bool_decide_eq_false_2.
  - by rewrite IH.
Qed.

Lemma dict_get_del_eq {V} (d : Dict.t V) k :
  NoDup (Dict.keys d) -> Dict.get (Dict.del d k) k = None.
Proof.
  unfold Dict.keys. induction d as [|[k0 v0] d IH]; cbn; [done|].
  intros [Hnotin Hnd]%NoDup_cons. case_bool_decide as E; cbn.
  - subst k0. destruct (Dict.get d k) eqn:G; [|done].
    exfalso. apply Hnotin. apply (dict_mem_keys d k).
    unfold Dict.mem. by rewrite G.
  - rewrite bool_decide_eq_false_2 by done. by apply IH.
Qed.



(** ** More on strings *)



Lemma all_dots_app a b :
  Str.all_dots (a +:+ b) = Str.all_dots a && Str.all_dots b.
Proof.
  induction a as [|x a IH]; simpl; [done|].
  rewrite IH. by rewrite andb_assoc.
Qed.

(** The root [splitext] gives for a name ending in [.txt] is never made of
    dots only. *)
Lemma splitext_txt_not_dots name :
  Str.endswith name ".txt" = true ->
  Str.all_dots (fst (Str.splitext name)) = false.
Proof.
  intros [b ->]%endswith_inv. rewrite splitext_txt.
  destruct (Str.all_dots b) eqn:E; [|done].
  rewrite all_dots_app, E. done.
Qed.






(** ** The scan, in closed form *)

Lemma candidate_not_dots listing base :
  is_candidate listing base = true -> Str.all_dots base = false.
Proof.
  intros (name & _ & [He Hb]%andb_true_iff)%existsb_exists.
  apply bool_decide_eq_true_1 in Hb. subst base.
  by apply splitext_txt_not_dots.
Qed.

Lemma has_artifacts_transcript fs base :
  has_artifacts fs base = true -> is_Some (fs !! (base +:+ ".txt")).
Proof.
  unfold has_artifacts, path_exists.
  destruct (fs !! (base +:+ ".txt")); [by eexists | done].
Qed.

Lemma scan_closed_form listing vm base :
  lists_dir listing (samples_dir vm) ->
  voice_exists (load_voices_in listing vm) base
  = has_artifacts (samples_dir vm) base && negb (Str.all_dots base).
Proof.
  intros Hl. unfold voice_exists, Dict.mem. rewrite load_voices_in_get.
  destruct (has_artifacts (samples_dir vm) base) eqn:Ha;
    [|by rewrite andb_false_r].
  rewrite andb_true_r. cbn [andb].
  destruct (Str.all_dots base) eqn:Hd; cbn [negb].
  - destruct (is_candidate listing base) eqn:Hc; [|done].
    apply candidate_not_dots in Hc. congruence.
  - rewrite candidate_of_transcript; [done | | done].
    apply Hl. by apply has_artifacts_transcript.
Qed.

(** ** Invariants of the registry *)








(** The files [delete_voice] leaves are those of the other voices. *)
Lemma delete_voice_files voice_name vm :
  voice_exists vm voice_name = true ->
  samples_dir (snd (delete_voice voice_name vm))
  = delete (voice_name +:+ ".pt")
      (delete (voice_name +:+ ".wav")
         (delete (voice_name +:+ ".txt") (samples_dir vm)))
  /\ voices (snd (delete_voice voice_name vm))
     = Dict.del (voices vm) voice_name.
Proof.
  intros Hex. unfold delete_voice. rewrite Hex. cbn [negb snd fold_left].
  by rewrite !unlink_if_exists_delete.
Qed.




(** ** Stripping *)





(** ** Scanning, cloning and deleting *)

(** X2: a scan registers exactly the voices whose name is not made of dots
    only (nor empty) and whose transcript and at least one of raw audio
    and encoding are in the samples directory. *)
Theorem load_voices_registers_exactly vm base :
  voice_exists (load_voices vm) base
  = has_artifacts (samples_dir vm) base && negb (Str.all_dots base).
Proof. apply scan_closed_form, os_listdir_lists_dir. Qed.

(** X3: [delete_voice] of a registered voice, in a registry without
    duplicate names, removes that name from the voice list and keeps the
    others in order, selects the first remaining voice, leaves the other
    entries as they were, removes the three files of the voice and no
    other; a second [delete_voice] of the name reports it as not found and
    changes nothing. *)
Theorem delete_voice_removes_one voice_name vm :
  NoDup (get_voice_list vm) ->
  voice_exists vm voice_name = true ->
  fst (delete_voice voice_name vm)
  = (StDeleted voice_name,
     GrUpdate (filter (fun k => k <> voice_name) (get_voice_list vm))
              (head (filter (fun k => k <> voice_name) (get_voice_list vm))))
  /\ get_voice_list (snd (delete_voice voice_name vm))
     = filter (fun k => k <> voice_name) (get_voice_list vm)
  /\ (forall name, name <> voice_name ->
        Dict.get (voices (snd (delete_voice voice_name vm))) name
        = Dict.get (voices vm) name)
  /\ (forall path,
        samples_dir (snd (delete_voice voice_name vm)) !! path
        = if bool_decide (path ∈ [voice_name +:+ ".txt";
                                   voice_name +:+ ".wav";
                                   voice_name +:+ ".pt"])
          then None else samples_dir vm !! path)
  /\ delete_voice voice_name (snd (delete_voice voice_name vm))
     = ((StNotFound voice_name, GrNoUpdate), snd (delete_voice voice_name vm)).
Proof.
  intros Hnd Hex.
  destruct (delete_voice_files voice_name vm Hex) as [Hfs Hv].
  assert (Hkeys : get_voice_list (snd (delete_voice voice_name vm))
                  = filter (fun k => k <> voice_name) (get_voice_list vm)).
  { unfold get_voice_list. rewrite Hv. by apply dict_keys_del. }
  split_and!.
  - unfold delete_voice in *. rewrite Hex in *. cbn [negb fst snd] in *.
    by rewrite Hkeys.
  - exact Hkeys.
  - intros name Hne. rewrite Hv. by apply dict_get_del_ne.
  - intros path. rewrite Hfs. case_bool_decide as E.
    + repeat (apply elem_of_cons in E as [->|E]).
      * rewrite lookup_delete_ne by ext_ne.
        rewrite lookup_delete_ne by ext_ne. apply lookup_delete_eq.
      * rewrite lookup_delete_ne by ext_ne. apply lookup_delete_eq.
      * apply lookup_delete_eq.
      * by apply elem_of_nil in E.
    + rewrite !lookup_delete_ne; [done|..];
        intros <-; apply E; repeat constructor.
  - assert (Hgone : voice_exists (snd (delete_voice voice_name vm)) voice_name
                    = false).
    { unfold voice_exists, Dict.mem. rewrite Hv.
      by rewrite dict_get_del_eq. }
    unfold delete_voice at 1. by rewrite Hgone.
Qed.

Lemma delete_voice_removes_one_witness :
  get_voice_list (snd (delete_voice "x" registry_x))
  = filter (fun k => k <> "x") (get_voice_list registry_x)
  /\ delete_voice "x" (snd (delete_voice "x" registry_x))
     = ((StNotFound "x", GrNoUpdate), snd (delete_voice "x" registry_x)).
Proof.
  destruct (delete_voice_removes_one "x" registry_x) as (_ & H & _ & _ & H').
  - cbn. repeat constructor. by intros ?%elem_of_nil.
  - reflexivity.
  - split; [exact H | exact H'].
Defined.












(** X7: for a voice that has its transcript and its encoding but no raw
    audio in the directory, the scan registers the encoding, and
    [load_reference] returns the stripped transcript and the stored
    encoding, read with [torch.load]; [encode_reference] is not called. *)
Theorem encoding_only_voice_is_loaded c listing vm base t cd s :
  is_candidate listing base = true ->
  samples_dir vm !! (base +:+ ".txt") = Some (TextFile t) ->
  samples_dir vm !! (base +:+ ".wav") = None ->
  samples_dir vm !! (base +:+ ".pt") = Some (CodesFile cd) ->
  load_reference c (load_voices_in listing vm) base s
  = (inr (Str.strip t, cd),
     GState (trace s ++ [CallTorchLoad (base +:+ ".pt")])
            (ticks s) (infer_calls s) (temp_output s)).
Proof.
  intros Hc Ht Hw Hp. unfold load_reference.
  rewrite load_voices_in_get, Hc.
  unfold has_artifacts, scanned_entry, path_exists. rewrite Ht, Hw, Hp.
  cbn [andb orb samples_dir load_voices_in].
  unfold bind at 1, lift at 1, read_text. rewrite Ht, endswith_app.
  unfold bind, torch_load, log, ret. by rewrite Hp.
Qed.

Lemma encoding_only_voice_is_loaded_witness :
  load_reference demo_collab
    (load_voices_in (os_listdir encoding_only)
       (VoiceManager [] encoding_only)) "z" (fresh None)
  = (inr (Str.strip " hi there ", [2; 7]),
     GState (trace (fresh None) ++ [CallTorchLoad ("z" +:+ ".pt")])
            (ticks (fresh None)) (infer_calls (fresh None))
            (temp_output (fresh None))).
Proof.
  apply (encoding_only_voice_is_loaded demo_collab (os_listdir encoding_only)
           (VoiceManager [] encoding_only) "z" " hi there " [2; 7]);
    by vm_compute.
Defined.

(** ** Requests that are refused *)

(** X8: a request with blank text, no voice name or an unknown voice gets
    exactly one event, the error of the first check that fails with
    progress 0; no collaborator is called, the clock is not read and the
    output file is not touched. *)
Theorem invalid_request_single_event c vm text voice_name speed out :
  blank text = true \/ not_provided voice_name = true
  \/ voice_exists vm (default EmptyString voice_name) = false ->
  run_job c vm text voice_name speed out
  = (inr tt,
     GState [Yield (Event 0 None
                      (if blank text then StEmptyText
                       else if not_provided voice_name then StNoVoice
                       else StVoiceNotFound (default EmptyString voice_name))
                      None)]
            0 0 out).
Proof.
  intros H. unfold run_job, generate_speech.
  destruct (blank text); [done|].
  destruct (not_provided voice_name); [done|].
  destruct (voice_exists vm (default EmptyString voice_name)); [|done].
  by destruct H as [H|[H|H]].
Qed.

Lemma invalid_request_single_event_witness :
  run_job demo_collab registry_x "   " (Some "x") 1 None
  = (inr tt, GState [Yield (Event 0 None StEmptyText None)] 0 0 None).
Proof.
  apply (invalid_request_single_event demo_collab registry_x "   "
           (Some "x") 1 None).
  left. reflexivity.
Defined.

Lemma reference_actions_requests c vm voice :
  infer_requests (reference_actions c vm voice) = []
  /\ write_requests (reference_actions c vm voice) = []
  /\ (length (reference_requests (reference_actions c vm voice)) <= 1)%nat.
Proof.
  destruct (reference_actions_cases c vm voice) as [-> | [p [-> | ->]]];
    cbn; split_and!; done || lia.
Qed.

(** X9: when the reference cannot be loaded, or the text splits into no
    chunk, the job yields the progress-10 event and then the terminal
    error carrying the exception's message ("No text to process" for no
    chunk); [infer] and [sf.write] are never called and the output file is
    not touched. *)
Theorem early_failure_makes_no_inference c vm text voice speed out :
  blank text = false -> Str.truthy voice = true ->
  voice_exists vm voice = true ->
  (exists e, reference_of c vm voice = inl e)
  \/ split_text_into_chunks c text = [] ->
  exists s' msg,
    run_job c vm text (Some voice) speed out = (inr tt, s')
    /\ yielded (trace s')
       = [Event 10 None StLoadingReference None;
          Event 0 None (StErrorGenerating msg) None]
    /\ msg = match reference_of c vm voice with
             | inl e => exn_str e
             | inr _ => "No text to process"
             end
    /\ infer_requests (trace s') = []
    /\ write_requests (trace s') = []
    /\ temp_output s' = out.
Proof.
  intros Ht Hv Hex Hcase.
  destruct (reference_actions_requests c vm voice) as (Hi & Hw & _).
  destruct (reference_of c vm voice) as [e|ref] eqn:Href.
  - rewrite (run_job_reference_fails c vm text voice speed out e) by done.
    eexists _, _. split; [reflexivity|]. cbn [trace temp_output].
    unfold infer_requests, write_requests in *.
    rewrite !omap_app, Hi, Hw.
    rewrite !yielded_app, yielded_reference_actions. done.
  - destruct Hcase as [[e He] | Hs]; [done|].
    rewrite (run_job_no_chunks c vm text voice speed out ref) by done.
    eexists _, _. split; [reflexivity|]. cbn [trace temp_output].
    unfold infer_requests, write_requests in *.
    rewrite !omap_app, Hi, Hw.
    rewrite !yielded_app, yielded_reference_actions. done.
Qed.

Lemma early_failure_makes_no_inference_witness :
  exists s' msg,
    run_job cannot_encode registry_x "say it" (Some "x") 1 None = (inr tt, s')
    /\ yielded (trace s')
       = [Event 10 None StLoadingReference None;
          Event 0 None (StErrorGenerating msg) None]
    /\ msg = match reference_of cannot_encode registry_x "x" with
             | inl e => exn_str e
             | inr _ => "No text to process"
             end
    /\ infer_requests (trace s') = []
    /\ write_requests (trace s') = []
    /\ temp_output s' = None.
Proof.
  apply (early_failure_makes_no_inference cannot_encode registry_x "say it"
           "x" 1 None).
  - by vm_compute.
  - by vm_compute.
  - by vm_compute.
  - left. exists (CollaboratorError "bad audio"). by vm_compute.
Defined.

(** ** Aggregation in general *)

Lemma kept_successes c ref_codes ref_text chunks :
  forall i call,
    (kept c ref_codes ref_text i call chunks).*2
    = omap (fun r : exn + audio =>
              match r with inr wav => Some wav | inl _ => None end)
           (imap (fun k chunk => infer c (call + k) chunk ref_codes ref_text)
                 chunks).
Proof.
  induction chunks as [|chunk rest IH]; intros i call; [done|].
  rewrite imap_cons. cbn [kept]. rewrite Nat.add_0_r.
  assert (Hext : imap ((fun k chunk' =>
                          infer c (call + k) chunk' ref_codes ref_text) ∘ S)
                   rest
                 = imap (fun k chunk' =>
                           infer c (S call + k) chunk' ref_codes ref_text)
                     rest).
  { apply imap_ext. intros k x _. cbn. f_equal. lia. }
  rewrite Hext. specialize (IH (i + 1) (S call)).
  destruct (infer c call chunk ref_codes ref_text); csimpl; by rewrite IH.
Qed.

Lemma infer_requests_loop c start_time total_chunks ref_codes ref_text chunks :
  forall i tick,
    infer_requests (loop_actions c start_time total_chunks ref_codes
                      ref_text i tick chunks)
    = (fun chunk => (chunk, ref_codes, ref_text)) <$> chunks
    /\ write_requests (loop_actions c start_time total_chunks ref_codes
                         ref_text i tick chunks) = []
    /\ reference_requests (loop_actions c start_time total_chunks ref_codes
                             ref_text i tick chunks) = [].
Proof.
  induction chunks as [|chunk rest IH]; intros i tick; [done|].
  destruct (IH (i + 1) (S tick)) as (H1 & H2 & H3).
  cbn [loop_actions]. unfold infer_requests, write_requests,
    reference_requests in *. csimpl. rewrite H1, H2, H3. done.
Qed.

Lemma job_prefix_requests c vm text voice ref_text ref_codes :
  infer_requests (job_prefix c vm text voice ref_text ref_codes)
  = (fun chunk => (chunk, ref_codes, ref_text))
      <$> split_text_into_chunks c text
  /\ write_requests (job_prefix c vm text voice ref_text ref_codes) = []
  /\ (length (reference_requests
                (job_prefix c vm text voice ref_text ref_codes)) <= 1)%nat.
Proof.
  destruct (reference_actions_requests c vm voice) as (Hi & Hw & Hr).
  destruct (infer_requests_loop c (time_time c 0)
              (Z.of_nat (length (split_text_into_chunks c text)))
              ref_codes ref_text (split_text_into_chunks c text) 1 1%nat)
    as (H1 & H2 & H3).
  unfold job_prefix, infer_requests, write_requests, reference_requests in *.
  rewrite !omap_app, Hi, Hw, H1, H2, H3. csimpl.
  rewrite app_nil_r. done.
Qed.

(** X10: a job that reaches the per-chunk loop calls [infer] exactly once
    per chunk, in chunk order, each time with the reference loaded at the
    start of the job; the reference is loaded with at most one call of
    [encode_reference] or [torch.load]; [sf.write] is called at most
    once. *)
Theorem one_inference_per_chunk c vm text voice speed out ref_text ref_codes :
  blank text = false -> Str.truthy voice = true ->
  voice_exists vm voice = true ->
  reference_of c vm voice = inr (ref_text, ref_codes) ->
  split_text_into_chunks c text <> [] ->
  infer_requests (trace (snd (run_job c vm text (Some voice) speed out)))
  = (fun chunk => (chunk, ref_codes, ref_text))
      <$> split_text_into_chunks c text
  /\ infer_calls (snd (run_job c vm text (Some voice) speed out))
     = length (split_text_into_chunks c text)
  /\ (length (reference_requests
                (trace (snd (run_job c vm text (Some voice) speed out))))
      <= 1)%nat
  /\ (length (write_requests
                (trace (snd (run_job c vm text (Some voice) speed out))))
      <= 1)%nat.
Proof.
  intros Ht Hv Hex Href Hne.
  rewrite (run_job_after_loop c vm text voice speed out ref_text ref_codes)
    by done.
  destruct (job_prefix_requests c vm text voice ref_text ref_codes)
    as (Hi & Hw & Hr).
  pose proof (kept_sorted c ref_codes ref_text
                (split_text_into_chunks c text) 1 0) as Hsorted.
  destruct (kept c ref_codes ref_text 1 0 (split_text_into_chunks c text))
    as [|r rs].
  - rewrite finish_empty. cbn [snd trace infer_calls].
    unfold infer_requests, write_requests, reference_requests in *.
    rewrite !omap_app, Hi, Hw. csimpl.
    rewrite !app_nil_r. split_and!; [done | done | done | cbn; lia].
  - rewrite finish_run by done.
    destruct (if negb (Qeq_bool speed 1) then _ else _) as [e|all_wav];
      [|destruct (sf_write c all_wav)];
      cbn [snd trace infer_calls];
      unfold infer_requests, write_requests, reference_requests in *;
      rewrite !omap_app, Hi, Hw; csimpl;
      rewrite !app_nil_r; split_and!; done || lia.
Qed.

Lemma one_inference_per_chunk_witness :
  infer_requests
    (trace (snd (run_job second_fails registry_x "say it" (Some "x") 1 None)))
  = (fun chunk => (chunk, [3; 1; 4], "hello"))
      <$> split_text_into_chunks second_fails "say it"
  /\ infer_calls (snd (run_job second_fails registry_x "say it" (Some "x")
                         1 None))
     = length (split_text_into_chunks second_fails "say it")
  /\ (length (reference_requests
                (trace (snd (run_job second_fails registry_x "say it"
                               (Some "x") 1 None))))
      <= 1)%nat
  /\ (length (write_requests
                (trace (snd (run_job second_fails registry_x "say it"
                               (Some "x") 1 None))))
      <= 1)%nat.
Proof.
  apply (one_inference_per_chunk second_fails registry_x "say it" "x" 1 None
           "hello" [3; 1; 4]).
  - by vm_compute.
  - by vm_compute.
  - by vm_compute.
  - by vm_compute.
  - intros H. discriminate H.
Defined.

Lemma kept_successes_job c ref_codes ref_text chunks :
  (kept c ref_codes ref_text 1 0 chunks).*2
  = successes c ref_codes ref_text chunks.
Proof. apply kept_successes. Qed.

(** The state in which a job that got a reference and chunks ends, by what
    happens after the loop. *)
Lemma run_job_outcome c vm text voice speed out ref_text ref_codes :
  blank text = false -> Str.truthy voice = true ->
  voice_exists vm voice = true ->
  reference_of c vm voice = inr (ref_text, ref_codes) ->
  successes c ref_codes ref_text (split_text_into_chunks c text) <> [] ->
  run_job c vm text (Some voice) speed out
  = match (if negb (Qeq_bool speed 1)
           then _apply_speed_adjustment
                  (joined silence
                     (successes c ref_codes ref_text
                        (split_text_into_chunks c text))) speed
           else inr (joined silence
                       (successes c ref_codes ref_text
                          (split_text_into_chunks c text)))) with
    | inl e =>
        (inr tt,
         GState (job_prefix c vm text voice ref_text ref_codes
                 ++ [Yield (Event 90 None StFinalizing None);
                     Yield (Event 0 None (StErrorGenerating (exn_str e))
                              None)])
                (S (length (split_text_into_chunks c text)))
                (length (split_text_into_chunks c text)) out)
    | inr all_wav =>
        match sf_write c all_wav with
        | Some e =>
            (inr tt,
             GState (job_prefix c vm text voice ref_text ref_codes
                     ++ [Yield (Event 90 None StFinalizing None);
                         CallSfWrite all_wav;
                         Yield (Event 0 None
                                  (StErrorGenerating (exn_str e)) None)])
                    (S (length (split_text_into_chunks c text)))
                    (length (split_text_into_chunks c text)) out)
        | None =>
            (inr tt,
             GState (job_prefix c vm text voice ref_text ref_codes
                     ++ [Yield (Event 90 None StFinalizing None);
                         CallSfWrite all_wav;
                         Yield (Event 100 (Some TEMP_OUTPUT_PATH)
                                  (StComplete
                                     (format_time
                                        (time_time c
                                           (S (length
                                                 (split_text_into_chunks
                                                    c text)))
                                         - time_time c 0)%Q)) None)])
                    (S (S (length (split_text_into_chunks c text))))
                    (length (split_text_into_chunks c text))
                    (Some all_wav))
        end
    end.
Proof.
  intros Ht Hv Hex Href Hsucc.
  assert (Hne : split_text_into_chunks c text <> []).
  { intros E. rewrite E in Hsucc. by apply Hsucc. }
  rewrite (run_job_after_loop c vm text voice speed out ref_text ref_codes)
    by done.
  rewrite finish_run; cycle 1.
  { intros E. apply Hsucc. rewrite <- kept_successes_job. by rewrite E. }
  { apply kept_sorted. }
  rewrite kept_successes_job. reflexivity.
Qed.

(** X11: whatever chunks fail, as long as [infer] returns for at least one
    and the speed adjustment and [sf.write] succeed, the job ends with the
    terminal success event and has written, in one [sf.write] call, the
    audio of the chunks that succeeded, in chunk order with one silence
    between neighbours, adjusted for the speed. *)
Theorem output_joins_successes c vm text voice speed out ref_text ref_codes
    out_wav :
  blank text = false -> Str.truthy voice = true ->
  voice_exists vm voice = true ->
  reference_of c vm voice = inr (ref_text, ref_codes) ->
  successes c ref_codes ref_text (split_text_into_chunks c text) <> [] ->
  (if negb (Qeq_bool speed 1)
   then _apply_speed_adjustment
          (joined silence
             (successes c ref_codes ref_text (split_text_into_chunks c text)))
          speed
   else inr (joined silence
               (successes c ref_codes ref_text
                  (split_text_into_chunks c text))))
  = inr out_wav ->
  sf_write c out_wav = None ->
  exists s' t,
    run_job c vm text (Some voice) speed out = (inr tt, s')
    /\ last (yielded (trace s'))
       = Some (Event 100 (Some TEMP_OUTPUT_PATH) (StComplete t) None)
    /\ write_requests (trace s') = [out_wav]
    /\ temp_output s' = Some out_wav.
Proof.
  intros Ht Hv Hex Href Hsucc Hadj Hw.
  rewrite (run_job_outcome c vm text voice speed out ref_text ref_codes)
    by done.
  rewrite Hadj, Hw. eexists _, _. split; [reflexivity|].
  cbn [trace temp_output].
  destruct (job_prefix_requests c vm text voice ref_text ref_codes)
    as (_ & Hwr & _).
  unfold write_requests in *. rewrite omap_app, Hwr.
  rewrite yielded_app.
  change (yielded [Yield ?a; CallSfWrite ?w; Yield ?b]) with ([a] ++ [b]).
  rewrite app_assoc, last_snoc. done.
Qed.

Lemma output_joins_successes_witness :
  exists s' t,
    run_job second_fails registry_x "say it" (Some "x") 1 None = (inr tt, s')
    /\ last (yielded (trace s'))
       = Some (Event 100 (Some TEMP_OUTPUT_PATH) (StComplete t) None)
    /\ write_requests (trace s')
       = [joined silence
            (successes second_fails [3; 1; 4] "hello"
               (split_text_into_chunks second_fails "say it"))]
    /\ temp_output s'
       = Some (joined silence
                 (successes second_fails [3; 1; 4] "hello"
                    (split_text_into_chunks second_fails "say it"))).
Proof.
  apply (output_joins_successes second_fails registry_x "say it" "x" 1 None
           "hello" [3; 1; 4]).
  - by vm_compute.
  - by vm_compute.
  - by vm_compute.
  - by vm_compute.
  - intros H. discriminate H.
  - reflexivity.
  - reflexivity.
Defined.



(** X13: when the speed adjustment raises (as it does for speed 0), the
    job ends with the terminal error event carrying the exception's
    message; [sf.write] is not called and the output file is as it was. *)
Theorem speed_failure_ends_in_error c vm text voice speed out ref_text
    ref_codes e :
  blank text = false -> Str.truthy voice = true ->
  voice_exists vm voice = true ->
  reference_of c vm voice = inr (ref_text, ref_codes) ->
  successes c ref_codes ref_text (split_text_into_chunks c text) <> [] ->
  Qeq_bool speed 1 = false ->
  _apply_speed_adjustment
    (joined silence
       (successes c ref_codes ref_text (split_text_into_chunks c text)))
    speed = inl e ->
  exists s',
    run_job c vm text (Some voice) speed out = (inr tt, s')
    /\ last (yielded (trace s'))
       = Some (Event 0 None (StErrorGenerating (exn_str e)) None)
    /\ write_requests (trace s') = []
    /\ temp_output s' = out.
Proof.
  intros Ht Hv Hex Href Hsucc Hs Hadj.
  rewrite (run_job_outcome c vm text voice speed out ref_text ref_codes)
    by done.
  rewrite Hs. cbn [negb]. rewrite Hadj. eexists. split; [reflexivity|].
  cbn [trace temp_output].
  destruct (job_prefix_requests c vm text voice ref_text ref_codes)
    as (_ & Hwr & _).
  unfold write_requests in *. rewrite omap_app, Hwr.
  rewrite yielded_app.
  change (yielded [Yield ?a; Yield ?b]) with ([a] ++ [b]).
  rewrite app_assoc, last_snoc. done.
Qed.

Lemma speed_failure_ends_in_error_witness :
  exists s',
    run_job demo_collab registry_x "say it" (Some "x") 0 None = (inr tt, s')
    /\ last (yielded (trace s'))
       = Some (Event 0 None
                 (StErrorGenerating (exn_str ZeroDivisionError)) None)
    /\ write_requests (trace s') = []
    /\ temp_output s' = None.
Proof.
  apply (speed_failure_ends_in_error demo_collab registry_x "say it" "x" 0
           None "hello" [3; 1; 4]).
  - by vm_compute.
  - by vm_compute.
  - by vm_compute.
  - by vm_compute.
  - intros H. discriminate H.
  - reflexivity.
  - reflexivity.
Defined.

(** ** Formatting durations *)



(** ** Speed adjustment in general *)

Lemma int_of_float_floor x : (0 <= x)%Q -> int_of_float x = Qfloor x.
Proof.
  intros H. destruct x as [n d]. unfold int_of_float, Qfloor. cbn [Qnum Qden].
  apply Z.quot_div_nonneg; [|lia].
  unfold Qle in H. cbn in H. lia.
Qed.


Lemma scaled_length_nonneg (n : nat) speed :
  (0 < speed)%Q -> (0 <= inject_Z (Z.of_nat n) / speed)%Q.
Proof.
  intros Hs. apply Qle_shift_div_l; [done|].
  assert (0 <= inject_Z (Z.of_nat n))%Q
    by (change 0%Q with (inject_Z 0); rewrite <- Zle_Qle; lia).
  lra.
Qed.


Lemma positive_speed_resamples (wav : audio) speed :
  (0 < speed)%Q -> Qeq_bool speed 1 = false ->
  _apply_speed_adjustment wav speed
  = inr (resample wav (Qfloor (inject_Z (Z.of_nat (length wav)) / speed)))
  /\ 0 <= Qfloor (inject_Z (Z.of_nat (length wav)) / speed)
  /\ (0 < Qfloor (inject_Z (Z.of_nat (length wav)) / speed) -> wav <> []).
Proof.
  intros Hpos Hne1.
  assert (Hne0 : Qeq_bool speed 0 = false).
  { destruct (Qeq_bool speed 0) eqn:E; [|done].
    apply Qeq_bool_eq in E. lra. }
  pose proof (scaled_length_nonneg (length wav) speed Hpos) as Hq.
  set (q := (inject_Z (Z.of_nat (length wav)) / speed)%Q) in *.
  assert (HT : int_of_float q = Qfloor q) by (by apply int_of_float_floor).
  assert (HT0 : 0 <= Qfloor q).
  { change 0 with (Qfloor 0). by apply Qfloor_resp_le. }
  assert (Hempty : 0 < Qfloor q -> wav <> []).
  { intros H ->. unfold q in H. cbn [length] in H.
    assert (E : (inject_Z (Z.of_nat 0) / speed == 0)%Q)
      by (change (inject_Z (Z.of_nat 0)) with 0%Q; field; lra).
    rewrite E in H. change 0%Q with (inject_Z 0) in H.
    rewrite Qfloor_Z in H. lia. }
  split_and!; [|done|done].
  rewrite <- HT. apply apply_speed_resamples; try done.
  - fold q. lia.
  - fold q. rewrite HT. exact Hempty.
Qed.





Lemma np_round_Z z : np_round (inject_Z z) = z.
Proof.
  unfold np_round. rewrite Qfloor_Z.
  destruct (Qcompare_spec (inject_Z z - inject_Z z) (1 # 2)) as [H|H|H];
    [lra | done | lra].
Qed.

Lemma np_round_Qeq x y : (x == y)%Q -> np_round x = np_round y.
Proof.
  intros H. unfold np_round. rewrite (Qfloor_comp x y H).
  assert (E : ((x - inject_Z (Qfloor y) ?= 1 # 2)
               = (y - inject_Z (Qfloor y) ?= 1 # 2))%Q).
  { apply Qcompare_comp; [|reflexivity].
    unfold Qminus. apply Qplus_comp; [exact H | reflexivity]. }
  by rewrite E.
Qed.

Lemma np_round_mono x y : (x <= y)%Q -> np_round x <= np_round y.
Proof.
  intros H. unfold np_round.
  pose proof (Qfloor_le x) as Hx1. pose proof (Qlt_floor x) as Hx2.
  pose proof (Qfloor_le y) as Hy1. pose proof (Qlt_floor y) as Hy2.
  pose proof (Qfloor_resp_le x y H) as Hf.
  rewrite inject_Z_plus in Hx2, Hy2. change (inject_Z 1) with 1%Q in *.
  destruct (decide (Qfloor x = Qfloor y)) as [E|E].
  - rewrite <- E in *.
    destruct (Qcompare_spec (x - inject_Z (Qfloor x)) (1 # 2)) as [Hc|Hc|Hc];
      destruct (Qcompare_spec (y - inject_Z (Qfloor x)) (1 # 2))
        as [Hd|Hd|Hd];
      try lra; try lia; destruct (Z.even (Qfloor x)); lia.
  - assert (Qfloor x + 1 <= Qfloor y) by lia.
    destruct (x - inject_Z (Qfloor x) ?= 1 # 2)%Q,
      (y - inject_Z (Qfloor y) ?= 1 # 2)%Q;
      repeat match goal with
             | |- context [if ?b then _ else _] => destruct b
             end; lia.
Qed.

(** X17: for a positive speed other than 1.0, the output of
    [_apply_speed_adjustment] is the input read at positions that never go
    backwards; it starts at the first input sample and, when it has two
    samples or more, ends at the last. *)
Theorem speed_adjustment_samples_in_order (wav : audio) speed out :
  (0 < speed)%Q -> Qeq_bool speed 1 = false ->
  _apply_speed_adjustment wav speed = inr out ->
  exists pos : nat -> nat,
    (forall k, (k < length out)%nat -> out !! k = wav !! pos k)
    /\ (forall k k', (k <= k' < length out)%nat -> (pos k <= pos k')%nat)
    /\ ((0 < length out)%nat -> pos 0%nat = 0%nat)
    /\ ((2 <= length out)%nat ->
        pos (length out - 1)%nat = (length wav - 1)%nat).
Proof.
  intros Hpos Hne1 Hrun.
  destruct (positive_speed_resamples wav speed Hpos Hne1)
    as (Hres & HT0 & Hempty).
  set (T := Qfloor (inject_Z (Z.of_nat (length wav)) / speed)) in *.
  assert (out = resample wav T) as -> by congruence.
  assert (Hlen : length (resample wav T) = Z.to_nat T).
  { unfold resample. by rewrite length_fmap, length_seqZ. }
  rewrite Hlen.
  exists (fun k => Z.to_nat (resample_index (Z.of_nat (length wav)) T
                               (Z.of_nat k))).
  assert (Hwav : (0 < Z.to_nat T)%nat -> 1 <= Z.of_nat (length wav)).
  { intros H. assert (wav <> []) by (apply Hempty; lia).
    destruct wav; [done | cbn [length]; lia]. }
  assert (Hstep : 0 < T - 1 ->
                  (0 <= inject_Z (Z.of_nat (length wav) - 1)
                        / inject_Z (T - 1))%Q).
  { intros H. apply Qle_shift_div_l.
    - change 0%Q with (inject_Z 0). rewrite <- Zlt_Qlt. lia.
    - assert (0 <= inject_Z (Z.of_nat (length wav) - 1))%Q.
      { change 0%Q with (inject_Z 0). rewrite <- Zle_Qle.
        assert (1 <= Z.of_nat (length wav)) by (apply Hwav; lia). lia. }
      lra. }
  split_and!.
  - intros k Hk. unfold resample, audio in *. rewrite list_lookup_fmap.
    rewrite lookup_seqZ_lt by lia. cbn [fmap option_fmap option_map].
    rewrite Z.add_0_l.
    pose proof (resample_index_in_range (Z.of_nat (length wav)) T
                  (Z.of_nat k)) as Hr.
    destruct (nth_lookup_or_length wav
                (Z.to_nat (resample_index (Z.of_nat (length wav)) T
                             (Z.of_nat k))) 0%Q) as [E|E]; [by rewrite E|].
    assert (1 <= Z.of_nat (length wav)) by (apply Hwav; lia). lia.
  - intros k k' Hk.
    assert (1 <= Z.of_nat (length wav)) by (apply Hwav; lia).
    pose proof (resample_index_in_range (Z.of_nat (length wav)) T
                  (Z.of_nat k)) as Hr.
    enough (resample_index (Z.of_nat (length wav)) T (Z.of_nat k)
            <= resample_index (Z.of_nat (length wav)) T (Z.of_nat k')) by lia.
    unfold resample_index. apply np_round_mono.
    assert (Hkk : (inject_Z (Z.of_nat k) <= inject_Z (Z.of_nat k'))%Q)
      by (rewrite <- Zle_Qle; lia).
    destruct (0 <? T - 1) eqn:E.
    + apply Z.ltb_lt in E. specialize (Hstep E). nra.
    + apply Z.ltb_ge in E. assert (k = k') as -> by lia. lra.
  - intros H0. unfold resample_index.
    rewrite (np_round_Qeq _ (inject_Z 0)); [by rewrite np_round_Z|].
    change (inject_Z (Z.of_nat 0)) with 0%Q. change (inject_Z 0) with 0%Q.
    destruct (0 <? T - 1); ring.
  - intros H2.
    assert (1 <= Z.of_nat (length wav)) by (apply Hwav; lia).
    unfold resample_index.
    assert ((0 <? T - 1) = true) as -> by (apply Z.ltb_lt; lia).
    rewrite (np_round_Qeq _ (inject_Z (Z.of_nat (length wav) - 1))).
    + rewrite np_round_Z. lia.
    + replace (Z.of_nat (Z.to_nat T - 1)) with (T - 1) by lia.
      field. change 0%Q with (inject_Z 0). rewrite inject_Z_injective. lia.
Qed.

Lemma speed_adjustment_samples_in_order_witness :
  exists pos : nat -> nat,
    (forall k, (k < length [1; 5]%Q)%nat ->
               [1; 5]%Q !! k = [1; 2; 3; 4; 5]%Q !! pos k)
    /\ (forall k k', (k <= k' < length [1; 5]%Q)%nat -> (pos k <= pos k')%nat)
    /\ ((0 < length [1; 5]%Q)%nat -> pos 0%nat = 0%nat)
    /\ ((2 <= length [1; 5]%Q)%nat ->
        pos (length [1; 5]%Q - 1)%nat
        = (length [1; 2; 3; 4; 5]%Q - 1)%nat).
Proof.
  apply (speed_adjustment_samples_in_order [1; 2; 3; 4; 5]%Q 2 [1; 5]%Q).
  - by vm_compute.
  - reflexivity.
  - by vm_compute.
Defined.

(** ** Length of the assembled waveform *)

Lemma joined_length gap (wavs : list audio) :
  wavs <> [] ->
  length (joined gap wavs)
  = (sum_list (length <$> wavs) + (length wavs - 1) * length gap)%nat.
Proof.
  induction wavs as [|w rest IH]; [done|]. intros _.
  destruct rest as [|w' rest'].
  - cbn. lia.
  - change (joined gap (w :: w' :: rest'))
      with (w ++ gap ++ joined gap (w' :: rest')).
    rewrite !length_app, IH by done.
    cbn [fmap list_fmap sum_list sum_list_with length]. unfold id.
    replace (S (S (length rest')) - 1)%nat with (S (length rest')) by lia.
    replace (S (length rest') - 1)%nat with (length rest') by lia.
    cbn [Nat.mul]. lia.
Qed.

Lemma silence_length : Z.of_nat (length silence) = 6000.
Proof. by vm_compute. Qed.

(** X18: the concatenation of [n >= 1] audio segments has the samples of
    all segments plus 6000 samples of silence (a quarter of a second at
    24 kHz) for each of the [n - 1] gaps; with no segment it raises
    [IndexError]. *)
Theorem concatenation_length processed_chunks :
  match concatenate_chunks processed_chunks with
  | inr all_wav =>
      processed_chunks <> []
      /\ Z.of_nat (length all_wav)
         = Z.of_nat (sum_list (length <$> processed_chunks))
           + (Z.of_nat (length processed_chunks) - 1) * 6000
  | inl e => processed_chunks = [] /\ e = IndexError
  end.
Proof.
  destruct processed_chunks as [|w rest] eqn:E; [done|]. rewrite <- E.
  rewrite concatenate_chunks_joined by (by rewrite E).
  split; [by rewrite E|].
  rewrite joined_length by (by rewrite E).
  rewrite Nat2Z.inj_add, Nat2Z.inj_mul, silence_length.
  rewrite Nat2Z.inj_sub; [lia|]. rewrite E. cbn [length]. lia.
Qed.


(** ** Resolving the model snapshot *)

Lemma first_snapshot_sound os snapshots_dir snaps snap_path :
  first_snapshot os snapshots_dir snaps = Some snap_path ->
  exists snap,
    snap ∈ snaps
    /\ snap_path = os_path_join os snapshots_dir snap
    /\ os_path_exists os (os_path_join os snap_path "config.json") = true.
Proof.
  induction snaps as [|snap rest IH]; [done|]. cbn [first_snapshot]; cbv zeta.
  destruct (os_path_exists os
              (os_path_join os (os_path_join os snapshots_dir snap)
                 "config.json")) eqn:E.
  - intros H. injection H as H. subst snap_path.
    exists snap. split_and!; [by left | done | done].
  - intros H. destruct (IH H) as (s & Hs & Hp & Hc).
    exists s. split_and!; [by right | done | done].
Qed.

Lemma first_snapshot_complete os snapshots_dir snaps snap :
  snap ∈ snaps ->
  os_path_exists os
    (os_path_join os (os_path_join os snapshots_dir snap) "config.json")
  = true ->
  exists snap_path, first_snapshot os snapshots_dir snaps = Some snap_path.
Proof.
  induction snaps as [|s rest IH]; [by intros ?%elem_of_nil|].
  intros [-> | Hin]%elem_of_cons Hc; cbn [first_snapshot]; cbv zeta.
  - rewrite Hc. by eexists.
  - destruct (os_path_exists os
                (os_path_join os (os_path_join os snapshots_dir s)
                   "config.json")); [by eexists | by apply IH].
Qed.

Lemma scan_models_sound os root_path names snap_path :
  scan_models os root_path names = inr (Some snap_path) ->
  exists name snaps snap,
    name ∈ names
    /\ String.prefix "models--" name = true
    /\ os_path_isdir os
         (os_path_join os (os_path_join os root_path name) "snapshots") = true
    /\ os_listdir_at os
         (os_path_join os (os_path_join os root_path name) "snapshots")
       = inr snaps
    /\ snap ∈ snaps
    /\ snap_path
       = os_path_join os
           (os_path_join os (os_path_join os root_path name) "snapshots") snap
    /\ os_path_exists os (os_path_join os snap_path "config.json") = true.
Proof.
  induction names as [|name rest IH]; [done|]. cbn [scan_models]; cbv zeta.
  assert (Hrest : scan_models os root_path rest = inr (Some snap_path) ->
                  exists name0 snaps snap,
                    name0 ∈ name :: rest
                    /\ String.prefix "models--" name0 = true
                    /\ os_path_isdir os
                         (os_path_join os (os_path_join os root_path name0)
                            "snapshots") = true
                    /\ os_listdir_at os
                         (os_path_join os (os_path_join os root_path name0)
                            "snapshots") = inr snaps
                    /\ snap ∈ snaps
                    /\ snap_path
                       = os_path_join os
                           (os_path_join os
                              (os_path_join os root_path name0) "snapshots")
                           snap
                    /\ os_path_exists os
                         (os_path_join os snap_path "config.json") = true).
  { intros H. destruct (IH H) as (n & ss & s & Hn & Hrest).
    exists n, ss, s. split; [by right | done]. }
  destruct (String.prefix "models--" name) eqn:Hp; [|done].
  destruct (os_path_isdir os
              (os_path_join os (os_path_join os root_path name) "snapshots"))
    eqn:Hd; [|done].
  destruct (os_listdir_at os
              (os_path_join os (os_path_join os root_path name) "snapshots"))
    as [e|snaps] eqn:Hl; [done|].
  destruct (first_snapshot os
              (os_path_join os (os_path_join os root_path name) "snapshots")
              snaps) as [p|] eqn:Hf; [|done].
  intros H. injection H as H. subst p.
  apply first_snapshot_sound in Hf as (snap & Hs & Hpath & Hc).
  exists name, snaps, snap. split_and!; try done. by left.
Qed.

Lemma scan_models_complete os root_path names name snaps snap :
  (forall path, exists l, os_listdir_at os path = inr l) ->
  name ∈ names ->
  String.prefix "models--" name = true ->
  os_path_isdir os
    (os_path_join os (os_path_join os root_path name) "snapshots") = true ->
  os_listdir_at os
    (os_path_join os (os_path_join os root_path name) "snapshots")
  = inr snaps ->
  snap ∈ snaps ->
  os_path_exists os
    (os_path_join os
       (os_path_join os
          (os_path_join os (os_path_join os root_path name) "snapshots") snap)
       "config.json") = true ->
  exists snap_path, scan_models os root_path names = inr (Some snap_path).
Proof.
  intros Hok Hin Hp Hd Hl Hs Hc.
  induction names as [|n rest IH]; [by apply elem_of_nil in Hin|].
  cbn [scan_models]; cbv zeta. apply elem_of_cons in Hin as [<- | Hin].
  - rewrite Hp, Hd, Hl.
    destruct (first_snapshot_complete os _ snaps snap Hs Hc) as [p ->].
    by eexists.
  - destruct (String.prefix "models--" n); [|by apply IH].
    destruct (os_path_isdir os
                (os_path_join os (os_path_join os root_path n) "snapshots"));
      [|by apply IH].
    destruct (Hok (os_path_join os (os_path_join os root_path n) "snapshots"))
      as [l ->].
    destruct (first_snapshot os
                (os_path_join os (os_path_join os root_path n) "snapshots")
                l); [by eexists | by apply IH].
Qed.


(** X20: when no directory listing raises and some listed [models--] entry
    has a snapshot that holds a [config.json], [_resolve_hf_snapshot]
    returns a directory that holds a [config.json]. *)
Theorem resolve_hf_snapshot_finds os root_path names name snaps snap :
  (forall path, exists l, os_listdir_at os path = inr l) ->
  os_listdir_at os root_path = inr names ->
  name ∈ names ->
  String.prefix "models--" name = true ->
  os_path_isdir os
    (os_path_join os (os_path_join os root_path name) "snapshots") = true ->
  os_listdir_at os
    (os_path_join os (os_path_join os root_path name) "snapshots")
  = inr snaps ->
  snap ∈ snaps ->
  os_path_exists os
    (os_path_join os
       (os_path_join os
          (os_path_join os (os_path_join os root_path name) "snapshots") snap)
       "config.json") = true ->
  os_path_exists os
    (os_path_join os (_resolve_hf_snapshot os root_path) "config.json")
  = true.
Proof.
  intros Hok Hl Hin Hp Hd Hls Hs Hc. unfold _resolve_hf_snapshot. rewrite Hl.
  destruct (scan_models_complete os root_path names name snaps snap)
    as [p Hscan]; try done.
  rewrite Hscan.
  apply scan_models_sound in Hscan
    as (n & ss & s & _ & _ & _ & _ & _ & _ & H7).
  exact H7.
Qed.


Lemma resolve_hf_snapshot_finds_witness :
  os_path_exists demo_os
    (os_path_join demo_os (_resolve_hf_snapshot demo_os "/m") "config.json")
  = true.
Proof.
  apply (resolve_hf_snapshot_finds demo_os "/m" ["readme"; "models--neutts"]
           "models--neutts" ["abc"] "abc").
  - intros path. cbn [os_listdir_at demo_os].
    destruct (bool_decide (path = "/m")); [by eexists|].
    destruct (bool_decide (path = "/m/models--neutts/snapshots"));
      by eexists.
  - reflexivity.
  - right. left.
  - reflexivity.
  - reflexivity.
  - reflexivity.
  - left.
  - reflexivity.
Defined.

(** ** The life of the model manager *)

(** X21: in every state a model manager reaches, it is initialised
    exactly when it holds a model; then [get_model] returns that model and
    [initialize_model] returns [True] without building a model again;
    before, [get_model] raises [RuntimeError].  [initialize_model] returns
    [True] exactly when the manager is initialised afterwards, and when it
    returns [False] the manager is unchanged. *)
Theorem model_manager_lifecycle {Model : Type}
    (NeuTTSAir : string -> exn + Model) os mm :
  mm_reachable NeuTTSAir os mm ->
  (if _initialized mm
   then exists m, model mm = Some m
                  /\ get_model mm = inr m
                  /\ initialize_model NeuTTSAir os mm = (true, mm, [])
   else mm = new_model_manager
        /\ get_model mm
           = inl (RuntimeError
                    "Model not initialized. Call initialize_model() first."))
  /\ (initialize_model NeuTTSAir os mm).1.1
     = _initialized (initialize_model NeuTTSAir os mm).1.2
  /\ ((initialize_model NeuTTSAir os mm).1.1 = false ->
      (initialize_model NeuTTSAir os mm).1.2 = mm)
  /\ (length (initialize_model NeuTTSAir os mm).2 <= 1)%nat.
Proof.
  intros Hr.
  assert (Hinv : if _initialized mm
                 then exists m, model mm = Some m
                 else mm = new_model_manager).
  { induction Hr as [|mm Hr IH]; [done|].
    unfold initialize_model. destruct (_initialized mm) eqn:Hi.
    - cbn [fst snd]. rewrite Hi. rewrite ?Hi in IH. exact IH.
    - destruct (NeuTTSAir _) as [e|m]; cbn [fst snd _initialized model].
      + rewrite Hi. rewrite ?Hi in IH. exact IH.
      + by eexists. }
  split_and!.
  - destruct (_initialized mm) eqn:Hi.
    + destruct Hinv as [m Hm]. exists m.
      unfold get_model, initialize_model. by rewrite Hi, Hm.
    + split; [done|]. unfold get_model. by rewrite Hi.
  - unfold initialize_model.
    destruct (_initialized mm) eqn:Hi; [cbn [fst snd]; by rewrite Hi|].
    destruct (NeuTTSAir _) as [e|m]; cbn [fst snd _initialized];
      [by rewrite Hi | done].
  - unfold initialize_model.
    destruct (_initialized mm) eqn:Hi; [done|].
    by destruct (NeuTTSAir _) as [e|m].
  - unfold initialize_model.
    destruct (_initialized mm) eqn:Hi; [cbn; lia|].
    destruct (NeuTTSAir _) as [e|m]; cbn; lia.
Qed.

Lemma model_manager_lifecycle_witness :
  get_model (initialize_model demo_constructor demo_os
               (initialize_model demo_constructor demo_os
                  new_model_manager).1.2).1.2
  = inr 7%nat.
Proof.
  destruct (model_manager_lifecycle demo_constructor demo_os
              (initialize_model demo_constructor demo_os
                 (initialize_model demo_constructor demo_os
                    new_model_manager).1.2).1.2) as (H & _).
  - apply mm_init, mm_init, mm_new.
  - assert (Hi : _initialized
                   (initialize_model demo_constructor demo_os
                      (initialize_model demo_constructor demo_os
                         new_model_manager).1.2).1.2 = true)
      by (by vm_compute).
    rewrite Hi in H. destruct H as (m & Hm & Hg & _).
    rewrite Hg. f_equal.
    assert (Hm' : model
                    (initialize_model demo_constructor demo_os
                       (initialize_model demo_constructor demo_os
                          new_model_manager).1.2).1.2 = Some 7%nat)
      by (by vm_compute).
    congruence.
Defined.


(** ** The eSpeak dependency check *)

Lemma find_dll_sound sys dir dlls candidate :
  find_dll sys dir dlls = Some candidate ->
  exists dll,
    dll ∈ dlls
    /\ candidate = os_path_join (sys_os sys) dir dll
    /\ os_path_exists (sys_os sys) candidate = true.
Proof.
  induction dlls as [|dll rest IH]; [done|]. cbn [find_dll]; cbv zeta.
  destruct (os_path_exists (sys_os sys) (os_path_join (sys_os sys) dir dll))
    eqn:E.
  - intros H. injection H as H. subst candidate.
    exists dll. split_and!; [by left | done | done].
  - intros H. destruct (IH H) as (d & Hd & Hc & He).
    exists d. split_and!; [by right | done | done].
Qed.

Lemma search_exe_dirs_sound sys cmds candidate :
  search_exe_dirs sys cmds = Some candidate ->
  (exists cmd, cmd ∈ cmds /\ on_path sys cmd = true)
  /\ exists dir dll,
      dll ∈ ESPEAK_DLL_NAMES
      /\ candidate = os_path_join (sys_os sys) dir dll
      /\ os_path_exists (sys_os sys) candidate = true.
Proof.
  induction cmds as [|cmd rest IH]; [done|]. cbn [search_exe_dirs]; cbv zeta.
  assert (Hrest : search_exe_dirs sys rest = Some candidate ->
                  (exists cmd0, cmd0 ∈ cmd :: rest /\ on_path sys cmd0 = true)
                  /\ exists dir dll,
                      dll ∈ ESPEAK_DLL_NAMES
                      /\ candidate = os_path_join (sys_os sys) dir dll
                      /\ os_path_exists (sys_os sys) candidate = true).
  { intros H. destruct (IH H) as [(c0 & Hc0 & Hon) Hdll].
    split; [|done]. exists c0. split; [by right | done]. }
  destruct (on_path sys cmd) eqn:Hon; [|done].
  destruct (find_dll sys _ ESPEAK_DLL_NAMES) as [c|] eqn:Hf; [|done].
  intros H. injection H as H. subst c.
  apply find_dll_sound in Hf as (dll & Hd & Hc & He).
  split; [exists cmd; split; [by left | done]|].
  by eexists _, dll.
Qed.

Lemma search_roots_sound sys roots candidate :
  search_roots sys roots = Some candidate ->
  exists dir dll,
    dll ∈ ESPEAK_DLL_NAMES
    /\ candidate = os_path_join (sys_os sys) dir dll
    /\ os_path_exists (sys_os sys) candidate = true.
Proof.
  induction roots as [|root rest IH]; [done|]. cbn [search_roots].
  destruct (find_dll sys root ESPEAK_DLL_NAMES) as [c|] eqn:Hf; [|done].
  intros H. injection H as H. subst c.
  apply find_dll_sound in Hf as (dll & Hd & Hc & He). by eexists _, dll.
Qed.

Lemma search_install_dirs_end sys paths env :
  match search_install_dirs sys paths env with
  | Returned env' =>
      exists dir dll,
        dll ∈ ESPEAK_DLL_NAMES
        /\ PHONEMIZER_ESPEAK_LIBRARY env'
           = Some (os_path_join (sys_os sys) dir dll)
        /\ os_path_exists (sys_os sys) (os_path_join (sys_os sys) dir dll)
           = true
  | FellThrough env' =>
      PHONEMIZER_ESPEAK_LIBRARY env' = PHONEMIZER_ESPEAK_LIBRARY env
  | Raised e env' =>
      e = KeyError "PATH" /\ PATH env = None
      /\ library_set_soundly sys env env'
  end.
Proof.
  induction paths as [|path rest IH]; [done|].
  cbn [search_install_dirs]; cbv zeta.
  destruct (os_path_exists (sys_os sys) path); [|exact IH].
  destruct (search_roots sys (os_walk sys path)) as [c|] eqn:Hs.
  - apply search_roots_sound in Hs as (dir & dll & Hd & -> & He).
    unfold prepend_to_path. cbn [PATH PHONEMIZER_ESPEAK_LIBRARY].
    destruct (PATH env) eqn:Hp.
    + by exists dir, dll.
    + split_and!; [done | done |]. right. by exists dir, dll.
  - destruct (os_path_exists (sys_os sys)
                (os_path_join (sys_os sys) path "espeak-ng.exe"));
      [|exact IH].
    unfold prepend_to_path. destruct (PATH env) eqn:Hp; [done|].
    split_and!; [done | done | by left].
Qed.

Lemma found_exe_in_path_iff sys :
  found_exe_in_path sys = true
  <-> exists cmd, cmd ∈ ESPEAK_COMMANDS /\ on_path sys cmd = true.
Proof.
  unfold found_exe_in_path, ESPEAK_COMMANDS. cbn [fold_left]. split.
  - destruct (on_path sys "espeak") eqn:E2.
    + intros _. exists "espeak". split; [by right; left | done].
    + destruct (on_path sys "espeak-ng") eqn:E1; [|done].
      intros _. exists "espeak-ng". split; [by left | done].
  - intros (cmd & Hin & Hon).
    apply elem_of_cons in Hin as [-> | Hin].
    + rewrite Hon. by destruct (on_path sys "espeak").
    + apply list_elem_of_singleton in Hin as ->. by rewrite Hon.
Qed.

(** X22: [check_espeak_installed] returns [True] only if an eSpeak command
    is on the search path or it has set the library variable to a library
    file that exists; it returns [False] only if no eSpeak command is on
    the search path, and then leaves the library variable alone; it raises
    only [KeyError] for a missing [PATH] variable.  Whenever it changes the
    library variable, the new value names one of the known library files
    and that file exists. *)
Theorem check_espeak_outcome sys env :
  match fst (check_espeak_installed sys env) with
  | inr true =>
      (exists cmd, cmd ∈ ESPEAK_COMMANDS /\ on_path sys cmd = true)
      \/ exists candidate,
          PHONEMIZER_ESPEAK_LIBRARY (snd (check_espeak_installed sys env))
          = Some candidate
          /\ os_path_exists (sys_os sys) candidate = true
  | inr false =>
      (forall cmd, cmd ∈ ESPEAK_COMMANDS -> on_path sys cmd = false)
      /\ PHONEMIZER_ESPEAK_LIBRARY (snd (check_espeak_installed sys env))
         = PHONEMIZER_ESPEAK_LIBRARY env
  | inl e => e = KeyError "PATH" /\ PATH env = None
  end
  /\ library_set_soundly sys env (snd (check_espeak_installed sys env)).
Proof.
  unfold check_espeak_installed; cbv zeta.
  destruct (search_exe_dirs sys ESPEAK_COMMANDS) as [c|] eqn:Hs.
  { apply search_exe_dirs_sound in Hs
      as [Hcmd (dir & dll & Hd & -> & He)].
    cbn [fst snd PHONEMIZER_ESPEAK_LIBRARY]. split; [by left|].
    right. by exists dir, dll. }
  pose proof (search_install_dirs_end sys ESPEAK_POSSIBLE_PATHS env) as Hend.
  destruct (search_install_dirs sys ESPEAK_POSSIBLE_PATHS env)
    as [env'|env'|e env'].
  - destruct Hend as (dir & dll & Hd & Hl & He). cbn [fst snd]. split.
    + right. eexists. by split.
    + right. by exists dir, dll.
  - destruct (found_exe_in_path sys) eqn:Hf; cbn [fst snd].
    + split; [|by left]. left. by apply found_exe_in_path_iff.
    + split; [|by left]. split; [|done].
      intros cmd Hin. destruct (on_path sys cmd) eqn:Hon; [|done].
      assert (found_exe_in_path sys = true)
        by (apply found_exe_in_path_iff; by exists cmd).
      congruence.
  - destruct Hend as (-> & Hp & Hl). cbn [fst snd]. by split.
Qed.

(** X23: with a [PATH] variable in the environment, [verify_system_requirements]
    returns [True] whenever an eSpeak command is on the search path,
    whether or not a library file is found. *)
Theorem espeak_on_path_suffices sys env cmd :
  cmd ∈ ESPEAK_COMMANDS -> on_path sys cmd = true ->
  PATH env <> None ->
  fst (verify_system_requirements sys env) = inr true.
Proof.
  intros Hin Hon Hpath.
  assert (Hf : found_exe_in_path sys = true)
    by (apply found_exe_in_path_iff; by exists cmd).
  unfold verify_system_requirements, check_espeak_installed; cbv zeta.
  rewrite Hf.
  destruct (search_exe_dirs sys ESPEAK_COMMANDS); [done|].
  pose proof (search_install_dirs_end sys ESPEAK_POSSIBLE_PATHS env) as Hend.
  destruct (search_install_dirs sys ESPEAK_POSSIBLE_PATHS env)
    as [env'|env'|e env']; [done | done |].
  by destruct Hend as (_ & Hp & _).
Qed.

Lemma espeak_on_path_suffices_witness :
  fst (verify_system_requirements demo_sys (Environ None (Some "C:\bin")))
  = inr true.
Proof.
  apply (espeak_on_path_suffices demo_sys (Environ None (Some "C:\bin"))
           "espeak").
  - right. left.
  - reflexivity.
  - intros H. discriminate H.
Defined.

(** ** The drop-down follows the registry *)

(** X24: whatever [clone_voice] and [delete_voice] are called with and
    however they end, the update they return keeps the voice drop-down in
    step with the registry: they return [gr.update()] only when the
    registry is unchanged, and otherwise send the complete voice list of
    the registry after the call with a selected voice that is in that
    list ([None] only when the list is empty). *)
Theorem handlers_keep_dropdown_in_step c vm :
  (forall new_name ref_text audio_file,
      update_in_step vm
        (snd (clone_voice c new_name ref_text audio_file vm))
        (snd (fst (clone_voice c new_name ref_text audio_file vm))))
  /\ (forall voice_name,
        update_in_step vm
          (snd (delete_voice voice_name vm))
          (snd (fst (delete_voice voice_name vm)))).
Proof.
  split.
  - intros new_name ref_text audio_file. unfold clone_voice; cbv zeta.
    destruct (blank new_name); [done|].
    destruct (blank ref_text); [done|].
    destruct (not_provided audio_file); [done|].
    destruct (voice_exists vm new_name) eqn:Hex; [done|].
    destruct (read_upload c (default EmptyString audio_file)) as [f|]; [|done].
    destruct (encode_reference c f) as [e|ref_codes]; [done|].
    cbn [fst snd update_in_step]. split; [done|].
    unfold get_voice_list. cbn [voices]. rewrite dict_keys_set.
    unfold voice_exists in Hex. rewrite Hex.
    apply elem_of_app. right. by left.
  - intros voice_name. unfold delete_voice; cbv zeta.
    destruct (voice_exists vm voice_name); cbn [negb]; [|done].
    cbn [fst snd update_in_step]. split; [done|].
    destruct (get_voice_list _) as [|v l]; cbn [head]; [done | by left].
Qed.

(** ** Start-up *)

(** X25: [main] reaches [create_interface] only when the system check
    returned [True] and [NeuTTSAir] built a model, which it was asked for
    exactly once; the voice manager and the speech generator then share
    that model, and the voice manager is a fresh scan of the samples
    directory, which start-up leaves as it was.  [main] ends with
    [sys.exit(1)] exactly when the check returns [False], before any model
    is built, or when the one [NeuTTSAir] call raises.  [get_model] never
    raises in [main]. *)
Theorem main_starts_only_when_ready {Model : Type}
    (NeuTTSAir : string -> exn + Model) sys env disk :
  match (main NeuTTSAir sys env disk).1.1 with
  | CreateInterface vm_model vm sg_model =>
      fst (verify_system_requirements sys env) = inr true
      /\ (exists backbone_arg,
            (main NeuTTSAir sys env disk).2 = [backbone_arg]
            /\ NeuTTSAir backbone_arg = inr vm_model)
      /\ sg_model = vm_model
      /\ samples_dir vm = disk
      /\ forall base,
          voice_exists vm base
          = has_artifacts disk base && negb (Str.all_dots base)
  | SysExit code =>
      code = 1
      /\ (fst (verify_system_requirements sys env) = inr false
          /\ (main NeuTTSAir sys env disk).2 = []
          \/ fst (verify_system_requirements sys env) = inr true
             /\ exists backbone_arg e,
                 (main NeuTTSAir sys env disk).2 = [backbone_arg]
                 /\ NeuTTSAir backbone_arg = inl e)
  | SysCheckRaised e =>
      fst (verify_system_requirements sys env) = inl e
      /\ (main NeuTTSAir sys env disk).2 = []
  | GetModelRaised _ => False
  end
  /\ snd (fst (main NeuTTSAir sys env disk))
     = snd (verify_system_requirements sys env).
Proof.
  unfold main; cbv zeta.
  destruct (verify_system_requirements sys env) as [[e|[|]] env'] eqn:Hv;
    cbn [fst snd]; [by split | | by split; [split; [|left]|]].
  unfold initialize_model, new_model_manager. cbn [_initialized].
  destruct (NeuTTSAir _) as [e|m] eqn:Hn; cbn [fst snd negb].
  - split; [|done]. split; [done|]. right. split; [done|]. by eexists _, e.
  - unfold get_model. cbn [_initialized model negb fst snd].
    split; [|done]. split_and!; try done.
    + by eexists.
    + intros base.
      exact (scan_closed_form (os_listdir disk) (VoiceManager [] disk) base
               (os_listdir_lists_dir disk)).
Qed.
